(** * pkg/codegen/pcl/program.go: the bound program model

    A shallow embedding of [program.go]: the [node] binding flags, the
    [Program] tree with its [Component] nodes, the package lists of a
    program, the component and snapshot aggregators, and the source
    tree export.

    Go maps are [gmap]s.  Where the Go code ranges over a map, the order
    is not fixed by the language; such loops are modelled over an
    arbitrary permutation of the map's entries. *)

From Stdlib Require Import Strings.String Strings.Ascii Strings.Byte.
From stdpp Require Import base option list sorting fin_maps gmap strings.
From stdpp Require Import pretty.

Set Warnings "-clear-no-such-hyp".

(** ** Errors

    Go [error] values as this file builds them: a leaf error coming from
    a collaborator, or [fmt.Errorf("<prefix>: %w", err)] wrapping one. *)
Inductive error : Type :=
| errors_New (msg : string)
| fmt_Errorf_w (prefix : string) (wrapped : error).

Fixpoint Error (e : error) : string :=
  match e with
  | errors_New msg => msg
  | fmt_Errorf_w prefix wrapped => prefix +:+ ": " +:+ Error wrapped
  end.

Definition Unwrap (e : error) : option error :=
  match e with
  | errors_New _ => None
  | fmt_Errorf_w _ wrapped => Some wrapped
  end.

(** The [(value, error)] result of a collaborator's method. *)
Inductive result (A : Type) : Type :=
| Ok (a : A)
| Err (e : error).
Arguments Ok {A} a.
Arguments Err {A} e.

(** A call that either returns or panics. *)
Inductive outcome (A : Type) : Type :=
| Returned (a : A)
| Panicked (e : error).
Arguments Returned {A} a.
Arguments Panicked {A} e.

(** ** Byte-wise string order, as [sort.Strings] uses it *)
Definition string_le (s1 s2 : string) : Prop := String.leb s1 s2 = true.
Definition string_lt (s1 s2 : string) : Prop := String.ltb s1 s2 = true.

#[global] Instance string_le_dec : RelDecision string_le.
Proof. intros s1 s2. unfold string_le. apply _. Defined.

(** [sort.Strings]: the ascending arrangement of the keys.  A total
    antisymmetric order has one sorted arrangement of a list, so the
    sorting algorithm itself is not observable. *)
Definition sort_Strings (keys : list string) : list string :=
  merge_sort string_le keys.

(** ** Collaborator types (package schema, syntax) *)
Module schema.

(** Modelled from the spec: [schema.Package] is declared outside
    program.go, which reads only its [Name]; [Version] stands for the
    rest of the schema. *)
Record Package : Type := mkPackage { Name : string; Version : string }.

(** Modelled from the spec: [*schema.PartialPackage], a lazily loaded
    schema stub declared outside program.go.  The loader's answers to
    [Snapshot()] and [Definition()] are carried as data. *)
Record PartialPackage : Type := mkPartialPackage {
  partial_name : string;
  partial_snapshot : result Package;
  partial_definition : result Package
}.

(** Modelled from the spec: [schema.PackageReference], an interface
    declared outside program.go, which tells [*schema.PartialPackage]
    apart from every other implementation by a type assertion and calls
    [Name()], [Definition()] and, on a partial package, [Snapshot()]. *)
Inductive PackageReference : Type :=
| PartialRef (partial : PartialPackage)
| FullRef (name : string) (definition : result Package).

Definition Snapshot (partial : PartialPackage) : result Package :=
  partial_snapshot partial.

Definition ref_Name (ref : PackageReference) : string :=
  match ref with
  | PartialRef partial => partial_name partial
  | FullRef name _ => name
  end.

Definition Definition_ (ref : PackageReference) : result Package :=
  match ref with
  | PartialRef partial => partial_definition partial
  | FullRef _ definition => definition
  end.

End schema.

Module syntax.

(** Modelled from the spec: [syntax.File], declared outside program.go;
    a parsed source file, name and raw bytes. *)
Record File : Type := mkFile { Name : string; Bytes : list byte }.

End syntax.

(** ** The [node] struct and its binding flags *)

(** A reference to another node of the same program, by its name. *)
Definition NodeRef : Type := string.

Record node : Type := mk_node {
  binding : bool;
  bound : bool;
  deps : list NodeRef
}.

(** The Go zero value: a freshly declared node. *)
Definition new_node : node := mk_node false false [].

Definition markBinding (r : node) : node :=
  {| binding := true; bound := bound r; deps := deps r |}.

Definition markBound (r : node) : node :=
  {| binding := binding r; bound := true; deps := deps r |}.

Definition isBinding (r : node) : bool := binding r && negb (bound r).

Definition isBound (r : node) : bool := bound r.

Definition getDependencies (r : node) : list NodeRef := deps r.

Definition setDependencies (nodes : list NodeRef) (r : node) : node :=
  {| binding := binding r; bound := bound r; deps := nodes |}.

(** The mutating calls of the [Node] interface, and a sequence of them
    applied to one node. *)
Inductive call : Type :=
| MarkBinding
| MarkBound
| SetDependencies (nodes : list NodeRef).

Definition do_call (r : node) (c : call) : node :=
  match c with
  | MarkBinding => markBinding r
  | MarkBound => markBound r
  | SetDependencies nodes => setDependencies nodes r
  end.

Definition run (cs : list call) (r : node) : node := fold_left do_call cs r.

(** Everything the read-only methods of a node reveal. *)
Definition observe (r : node) : bool * bool * list NodeRef :=
  (isBinding r, isBound r, getDependencies r).

(** ** Programs, nodes and components *)

(** Modelled from the spec: the type [binder] is declared outside
    program.go, which reads only its map of referenced packages. *)
Record binder : Type := mk_binder {
  referencedPackages : gmap string schema.PackageReference
}.

(** Modelled from the spec: the node kinds are declared outside
    program.go, which only tells them apart by a type switch.  Each
    embeds [node] and has a name. *)
Record ConfigVariable : Type := mkConfigVariable {
  ConfigVariable_node : node; ConfigVariable_name : string }.
Record LocalVariable : Type := mkLocalVariable {
  LocalVariable_node : node; LocalVariable_name : string }.
Record Resource : Type := mkResource {
  Resource_node : node; Resource_name : string }.
Record OutputVariable : Type := mkOutputVariable {
  OutputVariable_node : node; OutputVariable_name : string }.

(** "Nodes may be config, locals, resources, components, or outputs."
    Modelled from the spec: [Component] is declared outside program.go,
    which reads its fields [source] and [Program] and calls [DirPath()];
    a [Component] owns its nested [Program], so the whole is a finite
    tree. *)
Inductive Node : Type :=
| ConfigVariableNode (v : ConfigVariable)
| LocalVariableNode (v : LocalVariable)
| ResourceNode (v : Resource)
| ComponentNode (c : Component)
| OutputVariableNode (v : OutputVariable)
with Component : Type :=
| mkComponent (component_node : node) (name : string) (source : string)
              (dirPath : string) (program : Program)
with Program : Type :=
| mkProgram (nodes : list Node) (files : list syntax.File) (b : binder).

Definition source (c : Component) : string :=
  match c with mkComponent _ _ s _ _ => s end.
Definition DirPath (c : Component) : string :=
  match c with mkComponent _ _ _ d _ => d end.
Definition Component_Program (c : Component) : Program :=
  match c with mkComponent _ _ _ _ p => p end.

Definition Nodes (p : Program) : list Node :=
  match p with mkProgram ns _ _ => ns end.
Definition files (p : Program) : list syntax.File :=
  match p with mkProgram _ fs _ => fs end.
Definition Program_binder (p : Program) : binder :=
  match p with mkProgram _ _ b => b end.

(** The type switches of program.go: [node.(type)] against one case. *)
Definition asComponent (n : Node) : option Component :=
  match n with ComponentNode c => Some c | _ => None end.
Definition asConfigVariable (n : Node) : option ConfigVariable :=
  match n with ConfigVariableNode v => Some v | _ => None end.
Definition asOutputVariable (n : Node) : option OutputVariable :=
  match n with OutputVariableNode v => Some v | _ => None end.

(** ** Package lists of a program *)

(** [for k := range m { keys = append(keys, k) }] visits the keys in an
    order the language leaves open: [range_keys] is any arrangement of
    them, and [map_keys] is the one used to run the model. *)
Definition map_keys {V} (m : gmap string V) : list string :=
  (map_to_list m).*1.

Definition is_range_of {V} (range_keys : list string) (m : gmap string V)
  : Prop := range_keys ≡ₚ map_keys m.

(** The second loop of [PackageReferences]. *)
Definition lookup_values (m : gmap string schema.PackageReference)
    (keys : list string) : list schema.PackageReference :=
  fold_left (λ values k,
      match m !! k with
      | Some ref => values ++ [ref]
      | None => values  (* keys come from [m]: does not occur *)
      end) keys [].

Definition PackageReferences_from (range_keys : list string) (p : Program)
  : list schema.PackageReference :=
  let keys := sort_Strings range_keys in
  lookup_values (referencedPackages (Program_binder p)) keys.

Definition PackageReferences (p : Program) : list schema.PackageReference :=
  PackageReferences_from
    (map_keys (referencedPackages (Program_binder p))) p.

(** What [PackageSnapshots] asks of one reference. *)
Definition resolve (ref : schema.PackageReference)
  : result schema.Package :=
  match ref with
  | schema.PartialRef partial => schema.Snapshot partial
  | _ => schema.Definition_ ref
  end.

(** The loop of [PackageSnapshots], with its early return.  The keys
    come from the map itself, so the lookup never misses. *)
Fixpoint PackageSnapshots_loop (m : gmap string schema.PackageReference)
    (keys : list string) (values : list schema.Package)
  : list schema.Package * option error :=
  match keys with
  | [] => (values, None)
  | k :: keys' =>
    match m !! k with
    | None => PackageSnapshots_loop m keys' values
    | Some ref =>
      match resolve ref with
      | Err err =>
        ([], Some (fmt_Errorf_w
                     ("defining package '" +:+ schema.ref_Name ref +:+ "'")
                     err))
      | Ok pkg => PackageSnapshots_loop m keys' (values ++ [pkg])
      end
    end
  end.

Definition PackageSnapshots_from (range_keys : list string) (p : Program)
  : list schema.Package * option error :=
  let keys := sort_Strings range_keys in
  PackageSnapshots_loop (referencedPackages (Program_binder p)) keys [].

Definition PackageSnapshots (p : Program)
  : list schema.Package * option error :=
  PackageSnapshots_from
    (map_keys (referencedPackages (Program_binder p))) p.

(** The loop of [Packages]: [defs] has one slot per reference, [nil]
    until assigned; a failing [Definition()] panics. *)
Fixpoint Packages_loop (i : nat) (refs : list schema.PackageReference)
    (defs : list (option schema.Package))
  : outcome (list (option schema.Package)) :=
  match refs with
  | [] => Returned defs
  | ref :: refs' =>
    match schema.Definition_ ref with
    | Err err => Panicked (fmt_Errorf_w "loading package definition" err)
    | Ok def => Packages_loop (S i) refs' (<[i := Some def]> defs)
    end
  end.

Definition Packages (p : Program) : outcome (list (option schema.Package)) :=
  let refs := PackageReferences p in
  Packages_loop 0 refs (replicate (length refs) None).

(** Modelled from the spec: the binder, outside program.go, builds the
    map of referenced packages incrementally while declarations are
    bound: one map insertion per discovery, in discovery order. *)
Definition bind_references
    (discovered : list (string * schema.PackageReference))
  : gmap string schema.PackageReference :=
  fold_left (λ m kv, <[kv.1 := kv.2]> m) discovered ∅.

(** ** Filters over the node list *)

Definition ConfigVariables (p : Program) : list ConfigVariable :=
  fold_left (λ configVars n,
      match n with
      | ConfigVariableNode v => configVars ++ [v]
      | _ => configVars
      end) (Nodes p) [].

Definition OutputVariables (p : Program) : list OutputVariable :=
  fold_left (λ outputs n,
      match n with
      | OutputVariableNode v => outputs ++ [v]
      | _ => outputs
      end) (Nodes p) [].

(** ** [filepath.Join] (Go standard library, slash-separated paths)

    [Join] drops leading empty elements, joins the rest with a slash and
    returns the [Clean]ed path.  [Clean] works on the path lexically: it
    collapses repeated slashes, drops [.] elements, drops a [..] element
    together with the element before it, drops [..] at the root, and
    returns [.] for an empty result. *)
Module filepath.

Definition slash : ascii := "/"%char.

(** [strings.Split(path, "/")]. *)
Fixpoint Split (path : string) : list string :=
  match path with
  | EmptyString => [EmptyString]
  | String c rest =>
    if Ascii.eqb c slash then EmptyString :: Split rest
    else match Split rest with
         | [] => [String c EmptyString]
         | elem :: elems => String c elem :: elems
         end
  end.

(** One element of the path against the output built so far (last
    element first). *)
Definition Clean_elem (rooted : bool) (out : list string) (elem : string)
  : list string :=
  if String.eqb elem "" then out
  else if String.eqb elem "." then out
  else if String.eqb elem ".." then
    match out with
    | [] => if rooted then [] else [".."]
    | last :: out' => if String.eqb last ".." then ".." :: out else out'
    end
  else elem :: out.

Definition Clean (path : string) : string :=
  if String.eqb path "" then "."
  else
    let rooted := String.prefix "/" path in
    let out := fold_left (Clean_elem rooted) (Split path) [] in
    let cleaned :=
      (if rooted then "/" else "") +:+ String.concat "/" (rev out) in
    if String.eqb cleaned "" then "." else cleaned.

(** [filepath.Join(a, b)]. *)
Definition Join (a b : string) : string :=
  if negb (String.eqb a "") then Clean (a +:+ "/" +:+ b)
  else if negb (String.eqb b "") then Clean b
  else "".

End filepath.

(** ** The exported source tree *)

Record ProgramFile : Type := mkProgramFile {
  FileName : string;
  Content : list byte
}.

(** [ProgramFileOrDirectory] holds two pointers, one of them nil. *)
Inductive ProgramDirectory : Type :=
| mkProgramDirectory (path : string) (entries : list ProgramFileOrDirectory)
with ProgramFileOrDirectory : Type :=
| mkProgramFileOrDirectory (file : option ProgramFile)
                           (directory : option ProgramDirectory).

Definition Path (d : ProgramDirectory) : string :=
  match d with mkProgramDirectory path _ => path end.
Definition Entries (d : ProgramDirectory) : list ProgramFileOrDirectory :=
  match d with mkProgramDirectory _ entries => entries end.
Definition File (e : ProgramFileOrDirectory) : option ProgramFile :=
  match e with mkProgramFileOrDirectory file _ => file end.
Definition Directory (e : ProgramFileOrDirectory) : option ProgramDirectory :=
  match e with mkProgramFileOrDirectory _ directory => directory end.

Definition file_entry (file : syntax.File) : ProgramFileOrDirectory :=
  mkProgramFileOrDirectory
    (Some {| FileName := syntax.Name file; Content := syntax.Bytes file |})
    None.

Definition directory_entry (d : ProgramDirectory) : ProgramFileOrDirectory :=
  mkProgramFileOrDirectory None (Some d).

Fixpoint SourceFiles (directory : string) (p : Program) {struct p}
  : ProgramDirectory :=
  match p with
  | mkProgram nodes files _ =>
    let entries :=
      fold_left (λ entries file, entries ++ [file_entry file]) files [] in
    let entries :=
      fold_left (λ entries n,
          match n with
          | ComponentNode (mkComponent _ _ source _ program) =>
            let componentDirectory := filepath.Join directory source in
            entries ++
              [directory_entry (SourceFiles componentDirectory program)]
          | _ => entries
          end) nodes entries in
    mkProgramDirectory directory entries
  end.

(** ** Collecting the components of a program tree *)

Fixpoint collectComponentsRecursive (p : Program)
    (components : gmap string Component) {struct p}
  : gmap string Component :=
  match p with
  | mkProgram nodes _ _ =>
    fold_left (λ components n,
        match n with
        | ComponentNode (mkComponent _ _ _ dirPath program as c) =>
          match components !! dirPath with
          | Some _ => components
          | None =>
            collectComponentsRecursive program (<[dirPath := c]> components)
          end
        | _ => components
        end) nodes components
  end.

Definition CollectComponents (p : Program) : gmap string Component :=
  collectComponentsRecursive p ∅.

(** The same walk with a ghost log: every Component node the loop
    reaches ([Reached]), and every directory whose nested Program the
    walk descends into ([Descended]), both in the order of the walk. *)
Record walk : Type := mk_walk {
  components_of : gmap string Component;
  Reached : list Component;
  Descended : list string
}.

Fixpoint collectComponentsLogged (p : Program) (w : walk) {struct p}
  : walk :=
  match p with
  | mkProgram nodes _ _ =>
    fold_left (λ w n,
        match n with
        | ComponentNode (mkComponent _ _ _ dirPath program as c) =>
          match components_of w !! dirPath with
          | Some _ =>
            mk_walk (components_of w) (Reached w ++ [c]) (Descended w)
          | None =>
            collectComponentsLogged program
              (mk_walk (<[dirPath := c]> (components_of w))
                       (Reached w ++ [c]) (Descended w ++ [dirPath]))
          end
        | _ => w
        end) nodes w
  end.

Definition empty_walk : walk := mk_walk ∅ [] [].

(** Every Component node of the tree, nested ones included. *)
Fixpoint allComponents (p : Program) : list Component :=
  match p with
  | mkProgram nodes _ _ =>
    flat_map (λ n,
        match n with
        | ComponentNode (mkComponent _ _ _ _ program as c) =>
          c :: allComponents program
        | _ => []
        end) nodes
  end.

(** The Component nodes declared by the program itself. *)
Definition ownComponents (p : Program) : list Component :=
  omap asComponent (Nodes p).

(** A directory names one component: Component nodes that share a
    directory carry the same nested Program. *)
Definition directories_agree (cs : list Component) : Prop :=
  ∀ c1 c2, c1 ∈ cs → c2 ∈ cs → DirPath c1 = DirPath c2 →
           Component_Program c1 = Component_Program c2.

(** Nesting depth of a program tree. *)
Fixpoint Program_depth (p : Program) : nat :=
  match p with
  | mkProgram nodes _ _ =>
    S (fold_right (λ n d,
         match n with
         | ComponentNode (mkComponent _ _ _ _ program) =>
           Nat.max (Program_depth program) d
         | _ => d
         end) 0 nodes)
  end.

(** ** Collecting package snapshots over the tree *)

(** The accumulator [seenPackages], with a ghost log [Seen] of every
    snapshot the merge loop looks at, in order. *)
Record snapshots : Type := mk_snapshots {
  seenPackages : gmap string schema.Package;
  Seen : list schema.Package
}.

(** [for _, pkg := range packages { if !seen { seenPackages[..] = pkg } }] *)
Definition merge_packages (packages : list schema.Package) (s : snapshots)
  : snapshots :=
  fold_left (λ s pkg,
      match seenPackages s !! schema.Name pkg with
      | Some _ => mk_snapshots (seenPackages s) (Seen s ++ [pkg])
      | None =>
        mk_snapshots (<[schema.Name pkg := pkg]> (seenPackages s))
                     (Seen s ++ [pkg])
      end) packages s.

(** [collectPackageSnapshots]: the loop over [p.CollectComponents()]
    ranges over a map, so [range] is any arrangement of its values.  The
    accumulator is shared and mutated in place: what was merged before
    an error stays merged.  ([PackageSnapshots] ranges over a map too,
    but sorts the keys: its result does not depend on that order, see
    [PackageSnapshots_from_range].) *)
Inductive collectPackageSnapshots
  : Program → snapshots → snapshots * option error → Prop :=
| collect_PackageSnapshots_failed p s packages err :
    PackageSnapshots p = (packages, Some err) →
    collectPackageSnapshots p s (s, Some err)
| collect_PackageSnapshots_merged p s packages range r :
    PackageSnapshots p = (packages, None) →
    range ≡ₚ (map_to_list (CollectComponents p)).*2 →
    collect_range range (merge_packages packages s) r →
    collectPackageSnapshots p s r
with collect_range
  : list Component → snapshots → snapshots * option error → Prop :=
| collect_range_done s :
    collect_range [] s (s, None)
| collect_range_failed component range s s' err :
    collectPackageSnapshots (Component_Program component) s (s', Some err) →
    collect_range (component :: range) s (s', Some err)
| collect_range_next component range s s' r :
    collectPackageSnapshots (Component_Program component) s (s', None) →
    collect_range range s' r →
    collect_range (component :: range) s r.

Scheme collectPackageSnapshots_mut_ind :=
  Minimality for collectPackageSnapshots Sort Prop
with collect_range_mut_ind := Minimality for collect_range Sort Prop.

Definition empty_snapshots : snapshots := mk_snapshots ∅ [].

Definition CollectNestedPackageSnapshots (p : Program)
    (ret : gmap string schema.Package * option error) : Prop :=
  ∃ s, collectPackageSnapshots p empty_snapshots (s, ret.2) ∧
       seenPackages s = ret.1.

(** The same function run with one fixed range order; [fuel] bounds the
    nesting of the recursive calls.  [range_run] is the loop over the
    components, given the recursive call. *)
Definition range_run
    (call : Program → snapshots → option (snapshots * option error))
  : list Component → snapshots → option (snapshots * option error) :=
  fix range (cs : list Component) (s : snapshots) :=
    match cs with
    | [] => Some (s, None)
    | component :: cs' =>
      match call (Component_Program component) s with
      | None => None
      | Some (s', Some err) => Some (s', Some err)
      | Some (s', None) => range cs' s'
      end
    end.

Fixpoint collectPackageSnapshots_run (fuel : nat) (p : Program)
    (s : snapshots) : option (snapshots * option error) :=
  match fuel with
  | 0 => None
  | S fuel' =>
    match PackageSnapshots p with
    | (_, Some err) => Some (s, Some err)
    | (packages, None) =>
      range_run (collectPackageSnapshots_run fuel')
                (map_to_list (CollectComponents p)).*2
                (merge_packages packages s)
    end
  end.

(** The first snapshot of a given name in a log. *)
Definition first_named (name : string) (log : list schema.Package)
  : option schema.Package :=
  List.find (λ pkg, String.eqb (schema.Name pkg) name) log.

(** Every program of the tree: the root and all nested ones. *)
Definition allPrograms (p : Program) : list Program :=
  p :: (Component_Program <$> allComponents p).

Definition snapshot_of_tree (p : Program) (pkg : schema.Package) : Prop :=
  ∃ q, q ∈ allPrograms p ∧ pkg ∈ (PackageSnapshots q).1.

(** ** Sample programs *)

Definition no_binder : binder := mk_binder ∅.
Definition leaf_program : Program := mkProgram [] [] no_binder.

Definition component_at (name source dirPath : string) (p : Program)
  : Component := mkComponent new_node name source dirPath p.

Definition main_pp : syntax.File :=
  syntax.mkFile "main.pp" [x72; x65; x73]%byte.
Definition module_pp : syntax.File :=
  syntax.mkFile "module.pp" [x6f; x75; x74]%byte.

(** A program with the file [main.pp] and one component at [./mymodule]
    whose own program holds the file [module.pp]. *)
Definition mymodule_program : Program :=
  mkProgram
    [ ConfigVariableNode (mkConfigVariable new_node "region");
      ComponentNode
        (component_at "mymodule" "./mymodule" "/work/mymodule"
           (mkProgram [] [module_pp] no_binder)) ]
    [main_pp] no_binder.

(** ** Vocabulary for the statements about package lists *)

Definition refs_of (p : Program) : gmap string schema.PackageReference :=
  referencedPackages (Program_binder p).

(** The keys of the referenced packages in ascending order. *)
Definition sorted_keys (p : Program) : list string :=
  sort_Strings (map_keys (refs_of p)).

(** Key [k] holds a reference that resolves to [pkg]. *)
Definition resolves_to (m : gmap string schema.PackageReference)
    (k : string) (pkg : schema.Package) : Prop :=
  ∃ ref, m !! k = Some ref ∧ resolve ref = Ok pkg.

(** Two references under the keys [aws] and [random]; the first is
    partial. *)
Definition aws_v1 : schema.Package := schema.mkPackage "aws" "1.0.0".
Definition aws_v2 : schema.Package := schema.mkPackage "aws" "2.0.0".
Definition aws_full : schema.Package := schema.mkPackage "aws" "full".
Definition random_pkg : schema.Package := schema.mkPackage "random" "4.0.0".

Definition aws_partial_ref : schema.PackageReference :=
  schema.PartialRef (schema.mkPartialPackage "aws" (Ok aws_v1) (Ok aws_full)).
Definition random_ref : schema.PackageReference :=
  schema.FullRef "random" (Ok random_pkg).
Definition broken_ref : schema.PackageReference :=
  schema.FullRef "broken" (Err (errors_New "schema not found")).

Definition two_refs_program : Program :=
  mkProgram [] []
    (mk_binder
       (bind_references [("random", random_ref); ("aws", aws_partial_ref)])).

Definition broken_refs_program : Program :=
  mkProgram [] []
    (mk_binder
       (bind_references
          [("random", random_ref); ("broken", broken_ref);
           ("aws", aws_partial_ref)])).

(** The element [PackageSnapshots] owes for one reference: the pruned
    snapshot of a partial package, the full definition otherwise. *)
Definition element_for (ref : schema.PackageReference)
    (pkg : schema.Package) : Prop :=
  match ref with
  | schema.PartialRef partial => schema.Snapshot partial = Ok pkg
  | schema.FullRef _ _ => schema.Definition_ ref = Ok pkg
  end.

(** A program whose referenced packages were discovered in the given
    order. *)
Definition with_discovered (nodes : list Node) (fs : list syntax.File)
    (discovered : list (string * schema.PackageReference)) : Program :=
  mkProgram nodes fs (mk_binder (bind_references discovered)).

(** ** Vocabulary for the statements about the component walk *)

(** One iteration of the loop of [collectComponentsRecursive]. *)
Definition visit_node (components : gmap string Component) (n : Node)
  : gmap string Component :=
  match asComponent n with
  | Some c =>
    match components !! DirPath c with
    | Some _ => components
    | None =>
      collectComponentsRecursive (Component_Program c)
                                 (<[DirPath c := c]> components)
    end
  | None => components
  end.

(** The same iteration with the ghost log. *)
Definition visit_node_logged (w : walk) (n : Node) : walk :=
  match asComponent n with
  | Some c =>
    match components_of w !! DirPath c with
    | Some _ => mk_walk (components_of w) (Reached w ++ [c]) (Descended w)
    | None =>
      collectComponentsLogged (Component_Program c)
        (mk_walk (<[DirPath c := c]> (components_of w))
                 (Reached w ++ [c]) (Descended w ++ [DirPath c]))
    end
  | None => w
  end.

(** The first component of a given directory in a log. *)
Definition first_at (dir : string) (log : list Component) : option Component :=
  List.find (λ c, String.eqb (DirPath c) dir) log.

(** The walk of [CollectComponents] with its log. *)
Definition CollectComponents_walk (p : Program) : walk :=
  collectComponentsLogged p empty_walk.

(** Two declarations of the component at [./mymodule], which itself
    declares a component at [./inner]. *)
Definition inner_component : Component :=
  component_at "inner" "./inner" "/work/mymodule/inner" leaf_program.
Definition mymodule_component (name : string) : Component :=
  component_at name "./mymodule" "/work/mymodule"
    (mkProgram [ComponentNode inner_component] [module_pp] no_binder).
Definition twice_program : Program :=
  mkProgram
    [ ComponentNode (mymodule_component "first");
      ResourceNode (mkResource new_node "bucket");
      ComponentNode (mymodule_component "second") ]
    [main_pp] no_binder.

(** Two Component nodes that claim one directory but carry different
    nested Programs: only the first is descended. *)
Definition disagreeing_program : Program :=
  mkProgram
    [ ComponentNode (component_at "first" "./a" "/work/a" leaf_program);
      ComponentNode
        (component_at "second" "./a" "/work/a"
           (mkProgram [ComponentNode inner_component] [] no_binder)) ]
    [] no_binder.

(** A walk whose log accounts for its map: every directory maps to the
    first reached component of that directory, and the directories
    descended into are those of the map, each once. *)
Definition walk_ok (w : walk) : Prop :=
  (∀ k, components_of w !! k = first_at k (Reached w)) ∧
  NoDup (Descended w) ∧
  (∀ k, k ∈ Descended w ↔ is_Some (components_of w !! k)).

(** What a stretch of the walk from [w] to [w'] achieves: the map only
    grows, the log grows by components of [U], the components [own] are
    reached, and every directory added had its nested Program ranged
    over. *)
Definition progress (own : list Component) (U : Component → Prop)
    (w w' : walk) : Prop :=
  components_of w ⊆ components_of w' ∧
  (∃ r, Reached w' = Reached w ++ r ∧ ∀ c, c ∈ r → U c) ∧
  (∀ c, c ∈ own → c ∈ Reached w') ∧
  (∀ k c1, components_of w' !! k = Some c1 → components_of w !! k = None →
           ∀ c', c' ∈ ownComponents (Component_Program c1) →
                 c' ∈ Reached w').

(** ** Vocabulary for the statements about the snapshot merge *)

(** An accumulator whose log accounts for its map: every name maps to
    the first logged snapshot of that name. *)
Definition snapshots_ok (s : snapshots) : Prop :=
  ∀ name, seenPackages s !! name = first_named name (Seen s).

(** A parent program that references aws through a partial package
    (snapshot version 1.0.0) and declares one component whose program
    references aws at version 2.0.0. *)
Definition aws_nested_program : Program :=
  mkProgram [] [module_pp]
    (mk_binder
       (bind_references [("aws", schema.FullRef "aws" (Ok aws_v2))])).
Definition aws_parent_program : Program :=
  mkProgram
    [ ComponentNode
        (component_at "nested" "./nested" "/work/nested" aws_nested_program) ]
    [main_pp]
    (mk_binder (bind_references [("aws", aws_partial_ref)])).

(** What one call of [collectPackageSnapshots] on [p] does to the log:
    it appends snapshots of the tree of [p], beginning with the
    snapshots of [p] itself, and, when it returns no error, covering
    the snapshots of every collected component's program. *)
Definition collected_log (p : Program) (s : snapshots)
    (r : snapshots * option error) : Prop :=
  snapshots_ok s →
  snapshots_ok r.1 ∧
  ∃ extra,
    Seen r.1 = Seen s ++ extra ∧
    (∀ pkg, pkg ∈ extra → snapshot_of_tree p pkg) ∧
    (∀ pkgs, PackageSnapshots p = (pkgs, None) →
             ∃ rest, extra = pkgs ++ rest) ∧
    (r.2 = None → (PackageSnapshots p).2 = None) ∧
    (r.2 = None →
     ∀ dir c, CollectComponents p !! dir = Some c →
       ∀ pkg, pkg ∈ (PackageSnapshots (Component_Program c)).1 →
              pkg ∈ extra).

Definition collected_range_log (cs : list Component) (s : snapshots)
    (r : snapshots * option error) : Prop :=
  snapshots_ok s →
  snapshots_ok r.1 ∧
  ∃ extra,
    Seen r.1 = Seen s ++ extra ∧
    (∀ pkg, pkg ∈ extra →
            ∃ c, c ∈ cs ∧ snapshot_of_tree (Component_Program c) pkg) ∧
    (r.2 = None →
     ∀ c, c ∈ cs →
       ∀ pkg, pkg ∈ (PackageSnapshots (Component_Program c)).1 →
              pkg ∈ extra).

(** Every program of the tree resolves all its references. *)
Definition tree_resolves (p : Program) : Prop :=
  ∀ q, q ∈ allPrograms p → (PackageSnapshots q).2 = None.

(** ** Vocabulary for the further properties *)

(** The three binding states the two flags stand for. *)
Inductive bindingState : Type :=
| Unbound
| Binding
| Bound.

Definition state_of (r : node) : bindingState :=
  if bound r then Bound else if binding r then Binding else Unbound.

Definition next_state (st : bindingState) (c : call) : bindingState :=
  match c with
  | MarkBound => Bound
  | MarkBinding => match st with Unbound => Binding | _ => st end
  | SetDependencies _ => st
  end.

Definition is_SetDependencies (c : call) : Prop :=
  match c with SetDependencies _ => True | _ => False end.

(** The program [p] after the binder stored [ref] under key [k]. *)
Definition with_reference (k : string) (ref : schema.PackageReference)
    (p : Program) : Program :=
  mkProgram (Nodes p) (files p) (mk_binder (<[k := ref]> (refs_of p))).

(** No referenced package of [p] is a partial package. *)
Definition no_partial_reference (p : Program) : Prop :=
  ∀ k ref, refs_of p !! k = Some ref →
           ∃ name definition, ref = schema.FullRef name definition.

(** Two full references, the one under [broken] failing to load. *)
Definition full_refs_program : Program :=
  mkProgram [] []
    (mk_binder
       (bind_references [("random", random_ref); ("broken", broken_ref)])).

(** [Source]: the program's files as a map from file name to contents;
    [string(file.Bytes)] reads the bytes as a string. *)
Definition Source (p : Program) : gmap string string :=
  fold_left (λ source file,
      <[syntax.Name file := string_of_list_byte (syntax.Bytes file)]> source)
    (files p) ∅.

(** Reading an exported tree: all its files, all its directory paths
    (the root first, then depth first), and whether every entry holds
    exactly one of its two pointers. *)
Fixpoint tree_files (d : ProgramDirectory) : list ProgramFile :=
  match d with
  | mkProgramDirectory _ entries =>
    flat_map (λ e,
        match e with
        | mkProgramFileOrDirectory file directory =>
          match file with Some f => [f] | None => [] end ++
          match directory with Some d' => tree_files d' | None => [] end
        end) entries
  end.

Fixpoint tree_paths (d : ProgramDirectory) : list string :=
  match d with
  | mkProgramDirectory path entries =>
    path ::
    flat_map (λ e,
        match e with
        | mkProgramFileOrDirectory _ (Some d') => tree_paths d'
        | mkProgramFileOrDirectory _ None => []
        end) entries
  end.

Fixpoint one_pointer_each (d : ProgramDirectory) : bool :=
  match d with
  | mkProgramDirectory _ entries =>
    forallb (λ e,
        match e with
        | mkProgramFileOrDirectory (Some _) None => true
        | mkProgramFileOrDirectory None (Some d') => one_pointer_each d'
        | _ => false
        end) entries
  end.

Definition exported_file (file : syntax.File) : ProgramFile :=
  mkProgramFile (syntax.Name file) (syntax.Bytes file).

(** The files of every program of the tree, each program's own files
    first, then those of its components in declaration order. *)
Fixpoint program_files (p : Program) : list ProgramFile :=
  match p with
  | mkProgram nodes fs _ =>
    (exported_file <$> fs) ++
    flat_map (λ n,
        match n with
        | ComponentNode (mkComponent _ _ _ _ program) => program_files program
        | _ => []
        end) nodes
  end.

(** The tree knows one snapshot per package name. *)
Definition names_agree (p : Program) : Prop :=
  ∀ pkg pkg', snapshot_of_tree p pkg → snapshot_of_tree p pkg' →
              schema.Name pkg = schema.Name pkg' → pkg = pkg'.

(** A parent referencing random whose one component references aws. *)
Definition random_parent_program : Program :=
  mkProgram
    [ ComponentNode
        (component_at "nested" "./nested" "/work/nested" aws_nested_program) ]
    [main_pp]
    (mk_binder (bind_references [("random", random_ref)])).

(** A parent that resolves, with one component whose program does not. *)
Definition broken_nested_program : Program :=
  mkProgram
    [ ComponentNode
        (component_at "nested" "./nested" "/work/nested" full_refs_program) ]
    [main_pp]
    (mk_binder (bind_references [("aws", aws_partial_ref)])).

(** [m'] is [m] with entries added, each a snapshot from [T] stored
    under its own name; no entry of [m] is replaced or removed. *)
Definition only_adds (T : schema.Package → Prop)
    (m m' : gmap string schema.Package) : Prop :=
  m ⊆ m' ∧
  ∀ name pkg, m' !! name = Some pkg →
    m !! name = Some pkg ∨
    (m !! name = None ∧ schema.Name pkg = name ∧ T pkg).

(** ** pkg/backend/display/progress_test.go: the golden files of a run

    [testProgressEvents] compares the output of a run with two golden
    files named after the event file and the terminal settings.  [%v]
    prints an [int] in decimal, as [pretty] does. *)
Definition golden_suffix (interactive raw : bool) (width height : Z)
  : string :=
  let suffix := ".non-interactive" in
  if interactive then
    let suffix :=
      ".interactive-" +:+ pretty width +:+ "x" +:+ pretty height in
    if negb raw then suffix +:+ "-cooked" else suffix
  else suffix.

Definition golden_stdout (path : string) (interactive raw : bool)
    (width height : Z) : string :=
  path +:+ golden_suffix interactive raw width height +:+ ".stdout.txt".

Definition golden_stderr (path : string) (interactive raw : bool)
    (width height : Z) : string :=
  path +:+ golden_suffix interactive raw width height +:+ ".stderr.txt".

(** The character [c] does not occur in [s]. *)
Fixpoint no_char (c : ascii) (s : string) : bool :=
  match s with
  | EmptyString => true
  | String a s' => negb (Ascii.eqb a c) && no_char c s'
  end.

(** Two components, neither nested in the other, that reference aws
    with different snapshots; the root references nothing. *)
Definition aws_v1_program : Program :=
  mkProgram [] []
    (mk_binder (bind_references [("aws", aws_partial_ref)])).
Definition rival_one : Component :=
  component_at "one" "./one" "/work/one" aws_v1_program.
Definition rival_two : Component :=
  component_at "two" "./two" "/work/two" aws_nested_program.
Definition rival_program : Program :=
  mkProgram [ComponentNode rival_one; ComponentNode rival_two] [] no_binder.

(** * Properties *)

(** ** The binding flags of a node *)

Section node_flags.

Implicit Types (r : node) (cs : list call).

Lemma run_app cs cs' r : run (cs ++ cs') r = run cs' (run cs r).
Proof. apply fold_left_app. Qed.

Lemma run_cons c cs r : run (c :: cs) r = run cs (do_call r c).
Proof. reflexivity. Qed.

Lemma bound_do_call r c :
  bound (do_call r c) = true ↔ bound r = true ∨ c = MarkBound.
Proof. destruct c; simpl; naive_solver. Qed.

Lemma binding_do_call r c :
  binding (do_call r c) = true ↔ binding r = true ∨ c = MarkBinding.
Proof. destruct c; simpl; naive_solver. Qed.

Lemma bound_run cs r :
  bound (run cs r) = true ↔ bound r = true ∨ MarkBound ∈ cs.
Proof.
  revert r. induction cs as [|c cs IH]; intros r.
  - simpl. split; [auto|]. intros [H|H]; [done|]. by apply elem_of_nil in H.
  - rewrite run_cons, IH, bound_do_call, elem_of_cons. naive_solver.
Qed.

Lemma binding_run cs r :
  binding (run cs r) = true ↔ binding r = true ∨ MarkBinding ∈ cs.
Proof.
  revert r. induction cs as [|c cs IH]; intros r.
  - simpl. split; [auto|]. intros [H|H]; [done|]. by apply elem_of_nil in H.
  - rewrite run_cons, IH, binding_do_call, elem_of_cons. naive_solver.
Qed.

Lemma isBinding_true r :
  isBinding r = true ↔ binding r = true ∧ bound r ≠ true.
Proof.
  unfold isBinding. destruct (binding r), (bound r); simpl; naive_solver.
Qed.

Lemma deps_run_flags cs r1 r2 :
  deps r1 = deps r2 → deps (run cs r1) = deps (run cs r2).
Proof.
  revert r1 r2. induction cs as [|c cs IH]; intros r1 r2 Hd; [done|].
  rewrite !run_cons. apply IH. destruct c; simpl; congruence.
Qed.

End node_flags.

(** C1.  The binding state of a node only moves forward.  For every
    node and every sequence of [markBinding], [markBound] (and
    [setDependencies]) calls: once [isBound] is true it stays true under
    any further calls; on a fresh node [isBinding] is true exactly when
    [markBinding] has been called and [markBound] has not; and after a
    [markBound] call [isBinding] is false whatever calls follow. *)
Theorem node_binding_state_monotonic :
  (∀ (r : node) (cs cs' : list call),
      isBound (run cs r) = true → isBound (run (cs ++ cs') r) = true) ∧
  (∀ cs : list call,
      isBinding (run cs new_node) = true ↔
      MarkBinding ∈ cs ∧ MarkBound ∉ cs) ∧
  (∀ (r : node) (cs cs' : list call),
      MarkBound ∈ cs → isBinding (run (cs ++ cs') r) = false).
Proof.
  split; [|split].
  - intros r cs cs' H. unfold isBound in *.
    rewrite run_app. apply bound_run. by left.
  - intros cs. rewrite isBinding_true, binding_run, bound_run. simpl.
    naive_solver.
  - intros r cs cs' H. apply not_true_is_false.
    rewrite isBinding_true, bound_run. intros [_ Hn]. apply Hn.
    right. apply elem_of_app. by left.
Qed.

Lemma node_binding_state_monotonic_witness :
  isBound (run ([MarkBinding; MarkBound] ++ [MarkBinding]) new_node) = true ∧
  isBinding (run [SetDependencies ["a"]; MarkBinding] new_node) = true ∧
  isBinding (run ([MarkBinding; MarkBound] ++ [MarkBinding]) new_node)
    = false.
Proof.
  destruct node_binding_state_monotonic as (Hmono & Hiff & Hstay).
  split; [|split].
  - apply (Hmono new_node [MarkBinding; MarkBound] [MarkBinding]).
    reflexivity.
  - apply (Hiff [SetDependencies ["a"]; MarkBinding]). split.
    + apply list_elem_of_In. simpl. auto.
    + intros H. apply list_elem_of_In in H. simpl in H.
      destruct H as [H|[H|[]]]; discriminate H.
  - apply (Hstay new_node [MarkBinding; MarkBound] [MarkBinding]).
    apply list_elem_of_In. simpl. auto.
Defined.

(** C10.  Nothing makes [markBinding] come before [markBound].  On a
    node on which [markBinding] was never called, [markBound] makes
    [isBound] true and the node is never seen in the Binding state; and
    under every further call sequence the reading methods ([isBinding],
    [isBound], [getDependencies]) give the same answers as for a node
    that went through [markBinding] first, so no method detects the
    skipped step. *)
Theorem markBound_without_markBinding :
  isBound (markBound new_node) = true ∧
  isBinding (markBound new_node) = false ∧
  binding (markBound new_node) = false ∧
  (∀ cs : list call,
      isBound (run (cs ++ [MarkBound]) new_node) = true) ∧
  (∀ cs : list call,
      observe (run (MarkBound :: cs) new_node) =
      observe (run (MarkBinding :: MarkBound :: cs) new_node)).
Proof.
  split; [done|]. split; [done|]. split; [done|]. split.
  - intros cs. unfold isBound. apply bound_run. right.
    apply elem_of_app. right. by apply list_elem_of_singleton.
  - intros cs. unfold observe, getDependencies. f_equal; [f_equal|].
    + transitivity false; [|symmetry]; apply not_true_is_false;
        rewrite isBinding_true, bound_run; intros [_ Hn]; apply Hn;
        right; rewrite !elem_of_cons; auto.
    + unfold isBound. transitivity true; [|symmetry];
        apply bound_run; right; rewrite !elem_of_cons; auto.
    + rewrite !run_cons. by apply deps_run_flags.
Qed.

(** ** Order-preserving filters *)

Lemma fold_left_append_omap {A B} (f : A → option B) (g : list B → A → list B)
    (l : list A) (acc : list B) :
  (∀ acc x, g acc x = match f x with Some y => acc ++ [y] | None => acc end) →
  fold_left g l acc = acc ++ omap f l.
Proof.
  intros Hg. revert acc. induction l as [|x l IH]; intros acc; simpl.
  - by rewrite app_nil_r.
  - rewrite IH, Hg. destruct (f x); [|done]. by rewrite <- app_assoc.
Qed.

Lemma fmap_omap_filter {A B} (f : A → option B) (g : B → A) (l : list A) :
  (∀ x y, f x = Some y → g y = x) →
  g <$> omap f l = filter (λ x, is_Some (f x)) l.
Proof.
  intros Hfg. induction l as [|x l IH]; [done|]. simpl.
  destruct (f x) as [y|] eqn:Hx.
  - rewrite filter_cons_True by (rewrite Hx; eauto).
    change (list_omap A B f l) with (omap f l).
    rewrite fmap_cons, IH. by rewrite (Hfg x y Hx).
  - rewrite filter_cons_False; [done|]. rewrite Hx. by intros [? ?].
Qed.

Lemma ConfigVariables_omap p :
  ConfigVariables p = omap asConfigVariable (Nodes p).
Proof.
  unfold ConfigVariables.
  rewrite (fold_left_append_omap asConfigVariable); [done|].
  by intros acc [].
Qed.

Lemma OutputVariables_omap p :
  OutputVariables p = omap asOutputVariable (Nodes p).
Proof.
  unfold OutputVariables.
  rewrite (fold_left_append_omap asOutputVariable); [done|].
  by intros acc [].
Qed.

(** C8.  [ConfigVariables] returns exactly the ConfigVariable nodes of
    the program's node list and [OutputVariables] exactly its
    OutputVariable nodes, each in the order in which they stand in
    [Nodes]: seen as nodes again, each result is [Nodes] filtered by
    kind. *)
Theorem ConfigVariables_OutputVariables_ordered_filter (p : Program) :
  ConfigVariableNode <$> ConfigVariables p
    = filter (λ n, is_Some (asConfigVariable n)) (Nodes p) ∧
  OutputVariableNode <$> OutputVariables p
    = filter (λ n, is_Some (asOutputVariable n)) (Nodes p).
Proof.
  rewrite ConfigVariables_omap, OutputVariables_omap. split.
  - apply fmap_omap_filter. intros [] y; simpl; congruence.
  - apply fmap_omap_filter. intros [] y; simpl; congruence.
Qed.

(** ** The exported source tree *)

Lemma fold_left_append_fmap {A B} (f : A → B) (l : list A) (acc : list B) :
  fold_left (λ acc x, acc ++ [f x]) l acc = acc ++ (f <$> l).
Proof.
  revert acc. induction l as [|x l IH]; intros acc; simpl.
  - by rewrite app_nil_r.
  - by rewrite IH, <- app_assoc.
Qed.

Lemma SourceFiles_unfold directory p :
  SourceFiles directory p =
  mkProgramDirectory directory
    ((file_entry <$> files p) ++
     ((λ c, directory_entry
              (SourceFiles (filepath.Join directory (source c))
                           (Component_Program c)))
        <$> ownComponents p)).
Proof.
  destruct p as [nodes fs b]. simpl. f_equal.
  rewrite fold_left_append_fmap. simpl. unfold ownComponents. simpl.
  generalize (file_entry <$> fs). clear fs b.
  induction nodes as [|n nodes IH]; intros acc; simpl.
  - by rewrite app_nil_r.
  - rewrite IH. destruct n as [| | |[cn name src dir prog]|]; simpl;
      try done.
    by rewrite <- app_assoc.
Qed.

(** C7.  [SourceFiles d] returns a directory whose path is [d]; its
    entries are one file entry (name and bytes) per source file of the
    program, in file order, followed by one directory entry per
    Component node, in declaration order, each the [SourceFiles] of the
    component's nested Program at [filepath.Join d source].  With the
    file main.pp and a component at ./mymodule, [SourceFiles "out"] is
    the directory out holding main.pp and the directory out/mymodule. *)
Theorem SourceFiles_directory_tree (directory : string) (p : Program) :
  Path (SourceFiles directory p) = directory ∧
  Entries (SourceFiles directory p) =
    ((λ file,
        mkProgramFileOrDirectory
          (Some (mkProgramFile (syntax.Name file) (syntax.Bytes file))) None)
       <$> files p) ++
    ((λ c,
        mkProgramFileOrDirectory None
          (Some (SourceFiles (filepath.Join directory (source c))
                             (Component_Program c))))
       <$> ownComponents p) ∧
  SourceFiles "out" mymodule_program =
    mkProgramDirectory "out"
      [ mkProgramFileOrDirectory
          (Some (mkProgramFile "main.pp" (syntax.Bytes main_pp))) None;
        mkProgramFileOrDirectory None
          (Some (mkProgramDirectory "out/mymodule"
                   [ mkProgramFileOrDirectory
                       (Some (mkProgramFile "module.pp"
                                (syntax.Bytes module_pp))) None ])) ].
Proof.
  rewrite SourceFiles_unfold. split; [done|]. split; [done|].
  vm_compute. reflexivity.
Qed.

(** ** The byte-wise order on strings is a total order *)

Lemma Ascii_compare_refl (a : ascii) : Ascii.compare a a = Eq.
Proof. apply N.compare_refl. Qed.

Lemma Ascii_compare_lt_trans (a b c : ascii) :
  Ascii.compare a b = Lt → Ascii.compare b c = Lt → Ascii.compare a c = Lt.
Proof.
  unfold Ascii.compare. rewrite !N.compare_lt_iff. apply N.lt_trans.
Qed.

Lemma string_le_compare s1 s2 : string_le s1 s2 ↔ String.compare s1 s2 ≠ Gt.
Proof.
  unfold string_le, String.leb. destruct (String.compare s1 s2); naive_solver.
Qed.

Lemma string_lt_compare s1 s2 : string_lt s1 s2 ↔ String.compare s1 s2 = Lt.
Proof.
  unfold string_lt, String.ltb. destruct (String.compare s1 s2); naive_solver.
Qed.

#[global] Instance string_le_total : Total string_le.
Proof. intros s1 s2. apply String.leb_total. Qed.

#[global] Instance string_le_antisymm : AntiSymm (=) string_le.
Proof. intros s1 s2. apply String.leb_antisym. Qed.

#[global] Instance string_le_trans : Transitive string_le.
Proof.
  intros s1. induction s1 as [|a s1 IH]; intros [|b s2] [|c s3];
    rewrite !string_le_compare; simpl; try congruence.
  destruct (Ascii.compare a b) eqn:Hab; [| |congruence];
    destruct (Ascii.compare b c) eqn:Hbc; try congruence.
  - apply Ascii.compare_eq_iff in Hab, Hbc. subst.
    rewrite Ascii_compare_refl, <- !string_le_compare. apply IH.
  - apply Ascii.compare_eq_iff in Hab. subst. by rewrite Hbc.
  - apply Ascii.compare_eq_iff in Hbc. subst. by rewrite Hab.
  - by rewrite (Ascii_compare_lt_trans a b c).
Qed.

Lemma string_le_neq_lt s1 s2 : string_le s1 s2 → s1 ≠ s2 → string_lt s1 s2.
Proof.
  rewrite string_le_compare, string_lt_compare.
  destruct (String.compare s1 s2) eqn:H; try congruence.
  apply String.compare_eq_iff in H. congruence.
Qed.

Lemma string_lt_le s1 s2 : string_lt s1 s2 → string_le s1 s2.
Proof. rewrite string_le_compare, string_lt_compare. congruence. Qed.

(** ** [sort.Strings] *)

Lemma sort_Strings_Permutation keys : sort_Strings keys ≡ₚ keys.
Proof. apply merge_sort_Permutation. Qed.

Lemma sort_Strings_sorted keys : StronglySorted string_le (sort_Strings keys).
Proof. apply StronglySorted_merge_sort; apply _. Qed.

Lemma sort_Strings_range keys keys' :
  keys ≡ₚ keys' → sort_Strings keys = sort_Strings keys'.
Proof.
  intros H. apply (StronglySorted_unique string_le);
    [apply sort_Strings_sorted..|].
  by rewrite !sort_Strings_Permutation.
Qed.

Lemma StronglySorted_le_NoDup_lt keys :
  NoDup keys → StronglySorted string_le keys → StronglySorted string_lt keys.
Proof.
  induction 2 as [|k keys Hs IH Hk]; [constructor|].
  apply NoDup_cons in H as [Hnotin Hnd]. constructor; [by apply IH|].
  rewrite Forall_forall in *. intros k' Hk'.
  apply string_le_neq_lt; [by apply Hk|]. intros ->. done.
Qed.

Lemma sort_Strings_strict keys :
  NoDup keys → StronglySorted string_lt (sort_Strings keys).
Proof.
  intros H. apply StronglySorted_le_NoDup_lt; [|apply sort_Strings_sorted].
  by rewrite sort_Strings_Permutation.
Qed.

Lemma NoDup_map_keys {V} (m : gmap string V) : NoDup (map_keys m).
Proof. apply NoDup_fst_map_to_list. Qed.

Lemma elem_of_map_keys {V} (m : gmap string V) k :
  k ∈ map_keys m ↔ is_Some (m !! k).
Proof.
  unfold map_keys. rewrite list_elem_of_fmap. split.
  - intros ([k' v] & -> & H). apply elem_of_map_to_list in H. eauto.
  - intros [v H]. exists (k, v). split; [done|].
    by apply elem_of_map_to_list.
Qed.

(** ** The package lists of a program *)

Section package_lists.

Implicit Types (m : gmap string schema.PackageReference) (p : Program).

Lemma lookup_values_omap m keys :
  lookup_values m keys = omap (λ k, m !! k) keys.
Proof.
  unfold lookup_values.
  by rewrite (fold_left_append_omap (λ k, m !! k)).
Qed.

Lemma lookup_values_Forall2 m keys :
  Forall (λ k, is_Some (m !! k)) keys →
  Forall2 (λ k ref, m !! k = Some ref) keys (lookup_values m keys).
Proof.
  rewrite lookup_values_omap. induction 1 as [|k keys [ref Hk] _ IH]; simpl.
  - constructor.
  - rewrite Hk. by constructor.
Qed.

Lemma sorted_keys_Permutation p : sorted_keys p ≡ₚ map_keys (refs_of p).
Proof. apply sort_Strings_Permutation. Qed.

Lemma sorted_keys_present p :
  Forall (λ k, is_Some (refs_of p !! k)) (sorted_keys p).
Proof.
  apply Forall_forall. intros k Hk. apply elem_of_map_keys.
  by rewrite <- sorted_keys_Permutation.
Qed.

Lemma elem_of_sorted_keys p k : k ∈ sorted_keys p ↔ is_Some (refs_of p !! k).
Proof. by rewrite sorted_keys_Permutation, elem_of_map_keys. Qed.

Lemma sorted_keys_strict p : StronglySorted string_lt (sorted_keys p).
Proof. apply sort_Strings_strict, NoDup_map_keys. Qed.

Lemma PackageReferences_keys p :
  Forall2 (λ k ref, refs_of p !! k = Some ref)
          (sorted_keys p) (PackageReferences p).
Proof. apply lookup_values_Forall2, sorted_keys_present. Qed.

Lemma PackageReferences_from_range p range_keys :
  is_range_of range_keys (refs_of p) →
  PackageReferences_from range_keys p = PackageReferences p.
Proof.
  intros H. unfold PackageReferences, PackageReferences_from.
  by rewrite (sort_Strings_range _ _ H).
Qed.

Lemma PackageSnapshots_from_range p range_keys :
  is_range_of range_keys (refs_of p) →
  PackageSnapshots_from range_keys p = PackageSnapshots p.
Proof.
  intros H. unfold PackageSnapshots, PackageSnapshots_from.
  by rewrite (sort_Strings_range _ _ H).
Qed.

Lemma elem_of_PackageReferences p ref :
  ref ∈ PackageReferences p ↔ ∃ k, refs_of p !! k = Some ref.
Proof.
  split.
  - intros H.
    destruct (proj1 (list_elem_of_lookup _ _) H) as [i Hi].
    destruct (Forall2_lookup_r _ _ _ _ _ (PackageReferences_keys p) Hi)
      as (k & _ & Hk). eauto.
  - intros [k Hk].
    assert (k ∈ sorted_keys p) as Hin by (apply elem_of_sorted_keys; eauto).
    destruct (proj1 (list_elem_of_lookup _ _) Hin) as [i Hi].
    destruct (Forall2_lookup_l _ _ _ _ _ (PackageReferences_keys p) Hi)
      as (ref' & Hi' & Hk'). simplify_eq.
    apply list_elem_of_lookup. eauto.
Qed.

(** The loop of [PackageSnapshots] either resolves every key, or stops
    at the first key whose reference fails. *)
Lemma PackageSnapshots_loop_cases m keys values :
  Forall (λ k, is_Some (m !! k)) keys →
  (∃ pkgs, Forall2 (resolves_to m) keys pkgs ∧
           PackageSnapshots_loop m keys values = (values ++ pkgs, None)) ∨
  (∃ ks1 k ks2 pkgs ref err,
      keys = ks1 ++ k :: ks2 ∧ Forall2 (resolves_to m) ks1 pkgs ∧
      m !! k = Some ref ∧ resolve ref = Err err ∧
      PackageSnapshots_loop m keys values =
        ([], Some (fmt_Errorf_w
                     ("defining package '" +:+ schema.ref_Name ref +:+ "'")
                     err))).
Proof.
  intros H. revert values.
  induction H as [|k keys [ref Hk] _ IH]; intros values.
  - left. exists []. split; [constructor|]. simpl. by rewrite app_nil_r.
  - simpl. rewrite Hk. destruct (resolve ref) as [pkg|err] eqn:Hres.
    + destruct (IH (values ++ [pkg]))
        as [(pkgs & Hall & Heq)
           |(ks1 & k' & ks2 & pkgs & ref' & err & -> & Hall & Hk' & Hr & Heq)].
      * left. exists (pkg :: pkgs). split.
        { constructor; [by exists ref|done]. }
        by rewrite Heq, <- app_assoc.
      * right. exists (k :: ks1), k', ks2, (pkg :: pkgs), ref', err.
        split_and!; try done. constructor; [by exists ref|done].
    + right. exists [], k, keys, [], ref, err. by split_and!.
Qed.

End package_lists.

Lemma PackageSnapshots_cases (p : Program) :
  (∃ pkgs, Forall2 (resolves_to (refs_of p)) (sorted_keys p) pkgs ∧
           PackageSnapshots p = (pkgs, None)) ∨
  (∃ ks1 k ks2 pkgs ref err,
      sorted_keys p = ks1 ++ k :: ks2 ∧
      Forall2 (resolves_to (refs_of p)) ks1 pkgs ∧
      refs_of p !! k = Some ref ∧ resolve ref = Err err ∧
      PackageSnapshots p =
        ([], Some (fmt_Errorf_w
                     ("defining package '" +:+ schema.ref_Name ref +:+ "'")
                     err))).
Proof.
  apply (PackageSnapshots_loop_cases (refs_of p) (sorted_keys p) []).
  apply sorted_keys_present.
Qed.

Lemma resolves_to_elem_of m keys pkgs k :
  Forall2 (resolves_to m) keys pkgs → k ∈ keys →
  ∃ ref pkg, m !! k = Some ref ∧ resolve ref = Ok pkg ∧ pkg ∈ pkgs.
Proof.
  induction 1 as [|k' pkg keys pkgs (ref & Hk & Hr) _ IH]; intros Hin.
  - by apply elem_of_nil in Hin.
  - apply elem_of_cons in Hin as [->|Hin].
    + exists ref, pkg. split_and!; [done..|]. by left.
    + destruct (IH Hin) as (ref' & pkg' & ? & ? & ?).
      exists ref', pkg'. split_and!; [done..|]. by right.
Qed.

Lemma resolves_to_via_refs m keys refs pkgs :
  Forall2 (λ k ref, m !! k = Some ref) keys refs →
  Forall2 (resolves_to m) keys pkgs ↔
  Forall2 (λ ref pkg, resolve ref = Ok pkg) refs pkgs.
Proof.
  intros H. revert pkgs. induction H as [|k ref keys refs Hk _ IH];
    intros pkgs.
  - split; inversion 1; constructor.
  - split; inversion 1 as [|? pkg ? pkgs' Hhd Htl]; subst; constructor.
    + destruct Hhd as (ref' & Hk' & Hr). congruence.
    + by apply IH.
    + by exists ref.
    + by apply IH.
Qed.

Lemma Forall2_resolves_to_inj m keys pkgs pkgs' :
  Forall2 (resolves_to m) keys pkgs → Forall2 (resolves_to m) keys pkgs' →
  pkgs = pkgs'.
Proof.
  intros H. revert pkgs'.
  induction H as [|k pkg keys pkgs (ref & Hk & Hr) _ IH]; intros pkgs';
    inversion 1 as [|? pkg' ? pkgs'' (ref' & Hk' & Hr') Htl]; subst; [done|].
  f_equal; [congruence|]. by apply IH.
Qed.

Lemma string_append_assoc (s1 s2 s3 : string) :
  (s1 +:+ s2) +:+ s3 = s1 +:+ (s2 +:+ s3).
Proof.
  induction s1 as [|a s1 IH]; [reflexivity|].
  change (String a ((s1 +:+ s2) +:+ s3) = String a (s1 +:+ (s2 +:+ s3))).
  by rewrite IH.
Qed.

Lemma element_for_resolve ref pkg : element_for ref pkg ↔ resolve ref = Ok pkg.
Proof. by destruct ref. Qed.

(** C4.  [PackageSnapshots] is fail-fast.  If any referenced package
    fails to resolve ([Snapshot()] for a partial package, [Definition()]
    otherwise), the call returns the nil list with an error that wraps
    the loader's error under the name of the offending reference, the
    first failing one in key order.  An error result never carries a
    list, and a result without error means every reference resolved. *)
Theorem PackageSnapshots_fail_fast (p : Program) :
  (∀ k ref err,
      refs_of p !! k = Some ref → resolve ref = Err err →
      ∃ k' ref' err',
        refs_of p !! k' = Some ref' ∧ resolve ref' = Err err' ∧
        string_le k' k ∧
        PackageSnapshots p =
          ([], Some (fmt_Errorf_w
                       ("defining package '" +:+ schema.ref_Name ref' +:+ "'")
                       err'))) ∧
  (∀ pkgs e,
      PackageSnapshots p = (pkgs, Some e) →
      pkgs = [] ∧
      ∃ k ref err,
        refs_of p !! k = Some ref ∧ resolve ref = Err err ∧
        Unwrap e = Some err ∧
        Error e =
          "defining package '" +:+ schema.ref_Name ref +:+ "': " +:+ Error err) ∧
  (∀ pkgs,
      PackageSnapshots p = (pkgs, None) →
      ∀ k ref, refs_of p !! k = Some ref →
               ∃ pkg, resolve ref = Ok pkg ∧ pkg ∈ pkgs).
Proof.
  destruct (PackageSnapshots_cases p)
    as [(pkgs & Hall & Heq)
       |(ks1 & k' & ks2 & pkgs & ref' & err' & Hkeys & Hall & Hk' & Hr' & Heq)].
  - split_and!.
    + intros k ref err Hk Hr.
      assert (k ∈ sorted_keys p) as Hin by (apply elem_of_sorted_keys; eauto).
      destruct (resolves_to_elem_of _ _ _ _ Hall Hin) as (? & ? & ? & ? & _).
      congruence.
    + intros pkgs' e. rewrite Heq. congruence.
    + intros pkgs'. rewrite Heq. intros [= <-] k ref Hk.
      assert (k ∈ sorted_keys p) as Hin by (apply elem_of_sorted_keys; eauto).
      destruct (resolves_to_elem_of _ _ _ _ Hall Hin)
        as (ref'' & pkg & ? & ? & ?).
      exists pkg. split; [congruence|done].
  - split_and!.
    + intros k ref err Hk Hr. exists k', ref', err'. split_and!; try done.
      assert (k ∈ sorted_keys p) as Hin by (apply elem_of_sorted_keys; eauto).
      rewrite Hkeys in Hin.
      apply elem_of_app in Hin as [Hin|Hin].
      { destruct (resolves_to_elem_of _ _ _ _ Hall Hin) as (? & ? & ? & ? & _).
        congruence. }
      apply elem_of_cons in Hin as [->|Hin].
      { destruct (string_le_total k' k'); done. }
      pose proof (sorted_keys_strict p) as Hs. rewrite Hkeys in Hs.
      apply StronglySorted_app_1_r, StronglySorted_cons in Hs as [Hs _].
      rewrite Forall_forall in Hs. by apply string_lt_le, Hs.
    + intros pkgs' e. rewrite Heq. intros [= <- <-]. split; [done|].
      exists k', ref', err'. split_and!; try done.
      simpl. by rewrite !string_append_assoc.
    + intros pkgs'. rewrite Heq. congruence.
Qed.

Lemma PackageSnapshots_fail_fast_witness :
  ∃ k' ref' err',
    refs_of broken_refs_program !! k' = Some ref' ∧
    resolve ref' = Err err' ∧ string_le k' "broken" ∧
    PackageSnapshots broken_refs_program =
      ([], Some (fmt_Errorf_w
                   ("defining package '" +:+ schema.ref_Name ref' +:+ "'")
                   err')).
Proof.
  apply (proj1 (PackageSnapshots_fail_fast broken_refs_program)
           "broken" broken_ref (errors_New "schema not found")).
  - vm_compute. reflexivity.
  - reflexivity.
Defined.

(** C5.  [PackageSnapshots] returns a list without error exactly when
    it holds, position by position against [PackageReferences] (the
    references in ascending key order), the pruned [Snapshot()] of each
    partial package and the full [Definition()] of every other one. *)
Theorem PackageSnapshots_elements (p : Program) (pkgs : list schema.Package) :
  PackageSnapshots p = (pkgs, None) ↔
  Forall2 element_for (PackageReferences p) pkgs.
Proof.
  assert (Forall2 element_for (PackageReferences p) pkgs ↔
          Forall2 (resolves_to (refs_of p)) (sorted_keys p) pkgs) as ->.
  { rewrite (resolves_to_via_refs _ _ _ _ (PackageReferences_keys p)).
    split; intros H; eapply Forall2_impl; try exact H;
      intros ref pkg; apply element_for_resolve. }
  destruct (PackageSnapshots_cases p)
    as [(pkgs' & Hall & Heq)
       |(ks1 & k' & ks2 & pkgs' & ref' & err' & Hkeys & Hall & Hk' & Hr' & Heq)].
  - rewrite Heq. split.
    + by intros [= <-].
    + intros H. by rewrite (Forall2_resolves_to_inj _ _ _ _ Hall H).
  - rewrite Heq. split; [congruence|]. intros H.
    assert (k' ∈ sorted_keys p) as Hin.
    { rewrite Hkeys, elem_of_app, elem_of_cons. auto. }
    destruct (resolves_to_elem_of _ _ _ _ H Hin) as (? & ? & ? & ? & _).
    congruence.
Qed.

Lemma PackageSnapshots_elements_witness :
  PackageSnapshots two_refs_program = ([aws_v1; random_pkg], None).
Proof.
  apply (proj2 (PackageSnapshots_elements two_refs_program
                  [aws_v1; random_pkg])).
  vm_compute. repeat constructor.
Defined.

Lemma fold_left_insert_reverse
    (discovered : list (string * schema.PackageReference))
    (m : gmap string schema.PackageReference) :
  fold_left (λ m kv, <[kv.1 := kv.2]> m) discovered m =
  foldr (λ kv, <[kv.1 := kv.2]>) m (reverse discovered).
Proof.
  revert m. induction discovered as [|kv discovered IH]; intros m; [done|].
  simpl. by rewrite IH, reverse_cons, foldr_app.
Qed.

Lemma bind_references_list_to_map
    (discovered : list (string * schema.PackageReference)) :
  bind_references discovered = list_to_map (reverse discovered).
Proof. apply fold_left_insert_reverse. Qed.

Lemma bind_references_Permutation
    (discovered discovered' : list (string * schema.PackageReference)) :
  NoDup discovered.*1 → discovered ≡ₚ discovered' →
  bind_references discovered = bind_references discovered'.
Proof.
  intros Hnd Hperm. rewrite !bind_references_list_to_map.
  apply list_to_map_proper.
  - by rewrite reverse_Permutation.
  - by rewrite !reverse_Permutation.
Qed.

(** C6.  [PackageReferences] and [PackageSnapshots] list the packages by
    strictly ascending key, byte-wise: the keys of the program's
    references, [sorted_keys], stand in ascending order, the i-th
    reference is the one stored under the i-th key and the i-th snapshot
    resolves it.  Neither the order in which the map is ranged over nor
    the order in which the binder inserted the references changes the
    two lists. *)
Theorem package_lists_ascending (p : Program) :
  StronglySorted string_lt (sorted_keys p) ∧
  (∀ k, k ∈ sorted_keys p ↔ is_Some (refs_of p !! k)) ∧
  Forall2 (λ k ref, refs_of p !! k = Some ref)
          (sorted_keys p) (PackageReferences p) ∧
  (∀ pkgs, PackageSnapshots p = (pkgs, None) →
           Forall2 (resolves_to (refs_of p)) (sorted_keys p) pkgs) ∧
  (∀ range_keys, is_range_of range_keys (refs_of p) →
     PackageReferences_from range_keys p = PackageReferences p ∧
     PackageSnapshots_from range_keys p = PackageSnapshots p) ∧
  (∀ discovered discovered',
     refs_of p = bind_references discovered →
     NoDup discovered.*1 → discovered ≡ₚ discovered' →
     PackageReferences (with_discovered (Nodes p) (files p) discovered')
       = PackageReferences p ∧
     PackageSnapshots (with_discovered (Nodes p) (files p) discovered')
       = PackageSnapshots p).
Proof.
  split_and!.
  - apply sorted_keys_strict.
  - apply elem_of_sorted_keys.
  - apply PackageReferences_keys.
  - intros pkgs Heq.
    destruct (PackageSnapshots_cases p) as [(pkgs' & Hall & Heq')|H].
    + congruence.
    + destruct H as (? & ? & ? & ? & ? & ? & _ & _ & _ & _ & Heq').
      congruence.
  - intros range_keys H. split.
    + by apply PackageReferences_from_range.
    + by apply PackageSnapshots_from_range.
  - intros discovered discovered' Hrefs Hnd Hperm.
    assert (refs_of (with_discovered (Nodes p) (files p) discovered')
            = refs_of p) as Heq.
    { rewrite Hrefs. unfold with_discovered, refs_of. simpl.
      symmetry. by apply bind_references_Permutation. }
    unfold PackageReferences, PackageReferences_from,
      PackageSnapshots, PackageSnapshots_from.
    fold (refs_of p).
    fold (refs_of (with_discovered (Nodes p) (files p) discovered')).
    by rewrite Heq.
Qed.

Lemma package_lists_ascending_witness :
  PackageReferences_from ["random"; "aws"] two_refs_program
    = PackageReferences two_refs_program ∧
  PackageReferences
    (with_discovered [] [] [("aws", aws_partial_ref); ("random", random_ref)])
    = PackageReferences two_refs_program ∧
  Forall2 (resolves_to (refs_of two_refs_program))
          (sorted_keys two_refs_program) [aws_v1; random_pkg].
Proof.
  destruct (package_lists_ascending two_refs_program)
    as (_ & _ & _ & Hsnap & Hrange & Hbind).
  split_and!.
  - apply (Hrange ["random"; "aws"]). vm_compute. apply perm_swap.
  - apply (Hbind [("random", random_ref); ("aws", aws_partial_ref)]
                 [("aws", aws_partial_ref); ("random", random_ref)]).
    + reflexivity.
    + apply NoDup_cons. split.
      * intros H. apply list_elem_of_In in H. simpl in H.
        destruct H as [H|[]]. discriminate H.
      * apply NoDup_singleton.
    + apply perm_swap.
  - apply Hsnap. vm_compute. reflexivity.
Defined.

(** ** [Packages] *)

Lemma Packages_loop_cases (refs : list schema.PackageReference)
    (i : nat) (defs : list (option schema.Package)) :
  length defs = i + length refs →
  (∃ ds, Forall2 (λ ref d, schema.Definition_ ref = Ok d) refs ds ∧
         Packages_loop i refs defs = Returned (take i defs ++ (Some <$> ds))) ∨
  (∃ ref err, ref ∈ refs ∧ schema.Definition_ ref = Err err ∧
              Packages_loop i refs defs =
                Panicked (fmt_Errorf_w "loading package definition" err)).
Proof.
  revert i defs. induction refs as [|ref refs IH]; intros i defs Hlen.
  - left. exists []. split; [constructor|]. simpl in *.
    rewrite app_nil_r, take_ge; [done|lia].
  - simpl in *. destruct (schema.Definition_ ref) as [d|err] eqn:Hd.
    + destruct (IH (S i) (<[i := Some d]> defs))
        as [(ds & Hall & Heq)|(ref' & err & Hin & Hr & Heq)].
      { rewrite length_insert. lia. }
      * left. exists (d :: ds). split; [by constructor|].
        rewrite Heq. f_equal.
        rewrite (take_S_r _ _ (Some d)).
        { rewrite take_insert_ge by lia. by rewrite <- app_assoc. }
        apply list_lookup_insert_eq. lia.
      * right. exists ref', err. split_and!; [by right|done..].
    + right. exists ref, err. split_and!; [by left|done..].
Qed.

(** C9.  [Packages] has no error result: it returns a list or panics.
    If [Definition()] fails for a referenced package, [Packages] panics
    with an error wrapped as "loading package definition".  When it
    returns, every slot is filled and the list holds, position by
    position, the full definition of each reference of
    [PackageReferences], whose keys ascend. *)
Theorem Packages_panics_or_returns (p : Program) :
  (∀ k ref err,
      refs_of p !! k = Some ref → schema.Definition_ ref = Err err →
      ∃ ref' err',
        ref' ∈ PackageReferences p ∧ schema.Definition_ ref' = Err err' ∧
        Packages p =
          Panicked (fmt_Errorf_w "loading package definition" err') ∧
        Error (fmt_Errorf_w "loading package definition" err') =
          "loading package definition: " +:+ Error err') ∧
  (∀ defs,
      Packages p = Returned defs →
      ∃ ds, defs = Some <$> ds ∧
            Forall2 (λ ref d, schema.Definition_ ref = Ok d)
                    (PackageReferences p) ds) ∧
  ((∀ k ref, refs_of p !! k = Some ref →
             ∃ d, schema.Definition_ ref = Ok d) →
   ∃ defs, Packages p = Returned defs) ∧
  StronglySorted string_lt (sorted_keys p) ∧
  Forall2 (λ k ref, refs_of p !! k = Some ref)
          (sorted_keys p) (PackageReferences p).
Proof.
  assert (length (replicate (length (PackageReferences p))
                            (None : option schema.Package))
          = 0 + length (PackageReferences p)) as Hlen
    by (by rewrite length_replicate).
  destruct (Packages_loop_cases _ _ _ Hlen)
    as [(ds & Hall & Heq)|(ref' & err' & Hin & Hr & Heq)];
    fold (Packages p) in Heq; simpl in Heq;
    (split_and!;
     [| | |apply sorted_keys_strict|apply PackageReferences_keys]).
  - intros k ref err Hk Hd. exfalso.
    assert (ref ∈ PackageReferences p) as Hin
      by (apply elem_of_PackageReferences; eauto).
    apply list_elem_of_lookup in Hin as [i Hi].
    destruct (Forall2_lookup_l _ _ _ _ _ Hall Hi) as (d & _ & Hd').
    congruence.
  - intros defs. rewrite Heq. intros [= <-]. eauto.
  - eauto.
  - intros k ref err Hk Hd. exists ref', err'. by split_and!.
  - intros defs. rewrite Heq. congruence.
  - intros Hok. exfalso.
    apply elem_of_PackageReferences in Hin as [k Hk].
    destruct (Hok k ref' Hk) as [d Hd]. congruence.
Qed.

Lemma Packages_panics_or_returns_witness :
  (∃ ref' err',
      ref' ∈ PackageReferences broken_refs_program ∧
      schema.Definition_ ref' = Err err' ∧
      Packages broken_refs_program =
        Panicked (fmt_Errorf_w "loading package definition" err') ∧
      Error (fmt_Errorf_w "loading package definition" err') =
        "loading package definition: " +:+ Error err') ∧
  (∃ ds, [Some aws_full; Some random_pkg] = Some <$> ds ∧
         Forall2 (λ ref d, schema.Definition_ ref = Ok d)
                 (PackageReferences two_refs_program) ds).
Proof.
  split.
  - apply (proj1 (Packages_panics_or_returns broken_refs_program)
             "broken" broken_ref (errors_New "schema not found")).
    + vm_compute. reflexivity.
    + reflexivity.
  - apply (proj1 (proj2 (Packages_panics_or_returns two_refs_program))).
    vm_compute. reflexivity.
Defined.

(** ** The program tree *)

Lemma fold_left_ext {A B} (f g : A → B → A) (l : list B) (a : A) :
  (∀ a x, f a x = g a x) → fold_left f l a = fold_left g l a.
Proof.
  intros H. revert a. induction l as [|x l IH]; intros a; [done|].
  simpl. by rewrite H, IH.
Qed.

Lemma elem_of_ownComponents p c :
  c ∈ ownComponents p ↔ ComponentNode c ∈ Nodes p.
Proof.
  unfold ownComponents. rewrite list_elem_of_omap. split.
  - intros (n & Hn & Hc). destruct n; simplify_eq/=. done.
  - intros H. by exists (ComponentNode c).
Qed.

Lemma allComponents_unfold p :
  allComponents p =
  flat_map (λ c, c :: allComponents (Component_Program c)) (ownComponents p).
Proof.
  destruct p as [nodes fs b]. unfold ownComponents. simpl.
  induction nodes as [|n nodes IH]; [done|]. simpl. rewrite IH.
  destruct n as [| | |[]|]; reflexivity.
Qed.

Lemma elem_of_allComponents p c :
  c ∈ allComponents p ↔
  c ∈ ownComponents p ∨
  ∃ c0, c0 ∈ ownComponents p ∧ c ∈ allComponents (Component_Program c0).
Proof.
  rewrite allComponents_unfold, !list_elem_of_In, in_flat_map.
  setoid_rewrite list_elem_of_In. split.
  - intros (c0 & H0 & [->|H]); eauto.
  - intros [H|(c0 & H0 & H)]; [exists c|exists c0]; simpl; auto.
Qed.

Lemma Program_depth_own p c :
  c ∈ ownComponents p →
  Program_depth (Component_Program c) < Program_depth p.
Proof.
  rewrite elem_of_ownComponents. destruct p as [nodes fs b]. simpl.
  induction nodes as [|n nodes IH]; intros H.
  - by apply elem_of_nil in H.
  - apply elem_of_cons in H as [<-|H]; simpl.
    + destruct c. simpl. lia.
    + specialize (IH H). destruct n as [| | |[]|]; lia.
Qed.

(** Induction over the tree: a property holds of a program when it
    holds of the nested Program of each of its own components. *)
Lemma Program_tree_ind (P : Program → Prop) :
  (∀ p, (∀ c, c ∈ ownComponents p → P (Component_Program c)) → P p) →
  ∀ p, P p.
Proof.
  intros Hstep p.
  assert (∀ d q, Program_depth q < d → P q) as H.
  { induction d as [|d IH]; intros q Hq; [lia|].
    apply Hstep. intros c Hc. apply IH.
    pose proof (Program_depth_own q c Hc). lia. }
  apply (H (S (Program_depth p))). lia.
Qed.

Lemma allComponents_nested p c c' :
  c ∈ allComponents p → c' ∈ allComponents (Component_Program c) →
  c' ∈ allComponents p.
Proof.
  revert c c'. induction p as [p IH] using Program_tree_ind.
  intros c c' Hc Hc'. apply elem_of_allComponents in Hc as [Hc|(c0 & H0 & Hc)].
  - apply elem_of_allComponents. right. eauto.
  - apply elem_of_allComponents. right. exists c0. split; [done|].
    by apply (IH c0 H0 c c').
Qed.

Lemma collectComponentsRecursive_unfold p components :
  collectComponentsRecursive p components
  = fold_left visit_node (Nodes p) components.
Proof.
  destruct p as [nodes fs b]. simpl. apply fold_left_ext.
  by intros a [| | |[]|].
Qed.

Lemma collectComponentsLogged_unfold p w :
  collectComponentsLogged p w = fold_left visit_node_logged (Nodes p) w.
Proof.
  destruct p as [nodes fs b]. simpl. apply fold_left_ext.
  by intros a [| | |[]|].
Qed.

(** ** The walk of [CollectComponents] *)

Section component_walk.

Implicit Types (w : walk) (c : Component) (p : Program).

Lemma first_at_snoc dir (log : list Component) c :
  first_at dir (log ++ [c]) =
  match first_at dir log with
  | Some c' => Some c'
  | None => if String.eqb (DirPath c) dir then Some c else None
  end.
Proof.
  unfold first_at. induction log as [|c' log IH]; simpl; [done|].
  by destruct (String.eqb (DirPath c') dir).
Qed.

Lemma first_at_Some dir (log : list Component) c :
  first_at dir log = Some c → c ∈ log ∧ DirPath c = dir.
Proof.
  intros H. apply find_some in H as [Hin Heq].
  split; [by apply list_elem_of_In|by apply String.eqb_eq].
Qed.

Lemma first_at_elem_of (log : list Component) c :
  c ∈ log → is_Some (first_at (DirPath c) log).
Proof.
  intros H. destruct (first_at (DirPath c) log) eqn:Hf; [eauto|].
  apply list_elem_of_In in H.
  pose proof (find_none _ _ Hf c H) as Hn. simpl in Hn.
  by rewrite String.eqb_refl in Hn.
Qed.

Lemma walk_ok_empty : walk_ok empty_walk.
Proof.
  split_and!; simpl.
  - intros k. by rewrite lookup_empty.
  - constructor.
  - intros k. rewrite lookup_empty. split.
    + intros H. by apply elem_of_nil in H.
    + by intros [? ?].
Qed.

Lemma walk_ok_seen w c :
  walk_ok w → is_Some (components_of w !! DirPath c) →
  walk_ok (mk_walk (components_of w) (Reached w ++ [c]) (Descended w)).
Proof.
  intros (Hfirst & Hnd & Hdom) Hseen. split_and!; simpl; [|done..].
  intros k. rewrite first_at_snoc, <- Hfirst.
  destruct (components_of w !! k) eqn:Hk; [done|].
  destruct (String.eqb_spec (DirPath c) k) as [Heq|]; [|done].
  rewrite Heq, Hk in Hseen. by destruct Hseen.
Qed.

Lemma walk_ok_fresh w c :
  walk_ok w → components_of w !! DirPath c = None →
  walk_ok (mk_walk (<[DirPath c := c]> (components_of w))
                   (Reached w ++ [c]) (Descended w ++ [DirPath c])).
Proof.
  intros (Hfirst & Hnd & Hdom) Hfresh. split_and!; simpl.
  - intros k. rewrite first_at_snoc, <- Hfirst.
    destruct (String.eqb_spec (DirPath c) k) as [<-|Hne].
    + by rewrite lookup_insert_eq, Hfresh.
    + rewrite lookup_insert_ne by done.
      by destruct (components_of w !! k).
  - apply NoDup_app. split_and!; [done| |apply NoDup_singleton].
    intros k Hk Hk'. apply list_elem_of_singleton in Hk' as ->.
    apply Hdom in Hk. rewrite Hfresh in Hk. by destruct Hk.
  - intros k. rewrite elem_of_app, list_elem_of_singleton, Hdom.
    destruct (decide (DirPath c = k)) as [<-|Hne].
    + rewrite lookup_insert_eq. naive_solver.
    + rewrite lookup_insert_ne by done. naive_solver.
Qed.

Lemma visit_node_logged_ok w n :
  (∀ c, n = ComponentNode c →
        ∀ w0, walk_ok w0 →
              walk_ok (collectComponentsLogged (Component_Program c) w0)) →
  walk_ok w → walk_ok (visit_node_logged w n).
Proof.
  intros IH Hw. unfold visit_node_logged.
  destruct n as [| | |c|]; simpl; try done.
  destruct (components_of w !! DirPath c) eqn:Hc.
  - apply walk_ok_seen; [done|]. rewrite Hc. eauto.
  - apply (IH c eq_refl). by apply walk_ok_fresh.
Qed.

Lemma collectComponentsLogged_ok p :
  ∀ w, walk_ok w → walk_ok (collectComponentsLogged p w).
Proof.
  induction p as [p IH] using Program_tree_ind. intros w.
  rewrite collectComponentsLogged_unfold.
  assert (∀ c, ComponentNode c ∈ Nodes p → c ∈ ownComponents p) as Hown
    by (intros c; apply elem_of_ownComponents).
  revert Hown w. generalize (Nodes p).
  induction l as [|n ns IHns]; intros Hown w Hw; [done|].
  simpl. apply IHns.
  - intros c Hc. apply Hown. by right.
  - apply visit_node_logged_ok; [|done].
    intros c -> w0. apply IH, Hown. by left.
Qed.

Lemma collectComponentsLogged_components p :
  ∀ w, components_of (collectComponentsLogged p w)
       = collectComponentsRecursive p (components_of w).
Proof.
  induction p as [p IH] using Program_tree_ind. intros w.
  rewrite collectComponentsLogged_unfold, collectComponentsRecursive_unfold.
  assert (∀ c, ComponentNode c ∈ Nodes p → c ∈ ownComponents p) as Hown
    by (intros c; apply elem_of_ownComponents).
  revert Hown w. generalize (Nodes p).
  induction l as [|n ns IHns]; intros Hown w; [done|].
  simpl. rewrite IHns by (intros c Hc; apply Hown; by right).
  f_equal. unfold visit_node_logged, visit_node.
  destruct n as [| | |c|]; simpl; try done.
  destruct (components_of w !! DirPath c); [done|].
  rewrite IH; [done|]. apply Hown. by left.
Qed.

Lemma CollectComponents_walk_components p :
  components_of (CollectComponents_walk p) = CollectComponents p.
Proof. apply collectComponentsLogged_components. Qed.

End component_walk.

Section walk_progress.

Implicit Types (w : walk) (c : Component) (p : Program).
Implicit Types (U : Component → Prop).

Lemma progress_refl U w : progress [] U w w.
Proof.
  split_and!; [done| | |].
  - exists []. split; [by rewrite app_nil_r|]. intros c H.
    by apply elem_of_nil in H.
  - intros c H. by apply elem_of_nil in H.
  - intros k c1 H1 H2. congruence.
Qed.

Lemma progress_trans own1 own2 U w w1 w2 :
  progress own1 U w w1 → progress own2 U w1 w2 →
  progress (own1 ++ own2) U w w2.
Proof.
  intros (Hsub1 & (r1 & Hr1 & HU1) & Hown1 & Hnew1)
         (Hsub2 & (r2 & Hr2 & HU2) & Hown2 & Hnew2).
  assert (∀ c, c ∈ Reached w1 → c ∈ Reached w2) as Hmono.
  { intros c Hc. rewrite Hr2. apply elem_of_app. by left. }
  split_and!.
  - by transitivity (components_of w1).
  - exists (r1 ++ r2). split; [by rewrite Hr2, Hr1, app_assoc|].
    intros c [?|?]%elem_of_app; auto.
  - intros c [?|?]%elem_of_app; auto.
  - intros k c1 Hk2 Hk c' Hc'.
    destruct (components_of w1 !! k) as [c1'|] eqn:Hk1.
    + pose proof (lookup_weaken _ _ _ _ Hk1 Hsub2) as Hk2'.
      assert (c1' = c1) as -> by congruence.
      apply Hmono. by apply (Hnew1 k c1).
    + by apply (Hnew2 k c1).
Qed.

Lemma progress_weaken own U U' w w' :
  (∀ c, U c → U' c) → progress own U w w' → progress own U' w w'.
Proof.
  intros HU (Hsub & (r & Hr & Hin) & Hown & Hnew).
  split_and!; [done| |done..]. exists r. auto.
Qed.

Lemma progress_seen U w c :
  U c →
  progress [c] U w (mk_walk (components_of w) (Reached w ++ [c]) (Descended w)).
Proof.
  intros HU. split_and!; simpl; [done| | |].
  - exists [c]. split; [done|]. by intros c' ->%list_elem_of_singleton.
  - intros c' ->%list_elem_of_singleton. apply elem_of_app. right.
    by apply list_elem_of_singleton.
  - intros k c1 H1 H2. congruence.
Qed.

Lemma progress_fresh U w c w1 :
  U c → components_of w !! DirPath c = None →
  progress (ownComponents (Component_Program c)) U
    (mk_walk (<[DirPath c := c]> (components_of w))
             (Reached w ++ [c]) (Descended w ++ [DirPath c])) w1 →
  progress [c] U w w1.
Proof.
  intros HU Hfresh (Hsub & (r & Hr & Hin) & Hown & Hnew). simpl in *.
  split_and!.
  - transitivity (<[DirPath c := c]> (components_of w)); [|done].
    by apply insert_subseteq.
  - exists ([c] ++ r). split; [by rewrite Hr, <- app_assoc|].
    intros c' [->%list_elem_of_singleton|?]%elem_of_app; auto.
  - intros c' ->%list_elem_of_singleton. rewrite Hr, !elem_of_app.
    left. right. by apply list_elem_of_singleton.
  - intros k c1 Hk1 Hk c' Hc'.
    destruct (decide (DirPath c = k)) as [<-|Hne].
    + assert (components_of w1 !! DirPath c = Some c) as Hc.
      { apply (lookup_weaken _ _ _ _ (lookup_insert_eq _ _ _) Hsub). }
      assert (c1 = c) as -> by congruence. by apply Hown.
    + apply (Hnew k c1); [done| |done]. by rewrite lookup_insert_ne.
Qed.

Lemma collectComponentsLogged_progress p :
  ∀ w, progress (ownComponents p) (λ c, c ∈ allComponents p) w
                (collectComponentsLogged p w).
Proof.
  induction p as [p IH] using Program_tree_ind. intros w.
  rewrite collectComponentsLogged_unfold. unfold ownComponents at 1.
  assert (∀ c, ComponentNode c ∈ Nodes p → c ∈ ownComponents p) as Hown
    by (intros c; apply elem_of_ownComponents).
  revert Hown w. generalize (Nodes p).
  induction l as [|n ns IHns]; intros Hown w; [apply progress_refl|].
  assert (∀ c, ComponentNode c ∈ ns → c ∈ ownComponents p) as Hown'
    by (intros c Hc; apply Hown; by right).
  destruct n as [v|v|v|c|v];
    try (change (progress (omap asComponent ns) (λ c, c ∈ allComponents p) w
                   (fold_left visit_node_logged ns w));
         by apply IHns).
  change (progress ([c] ++ omap asComponent ns) (λ c, c ∈ allComponents p) w
            (fold_left visit_node_logged ns
               (visit_node_logged w (ComponentNode c)))).
  eapply progress_trans; [|by apply IHns].
  assert (c ∈ ownComponents p) as Hc by (apply Hown; by left).
  assert (c ∈ allComponents p) as HU
    by (apply elem_of_allComponents; by left).
  unfold visit_node_logged. simpl.
  destruct (components_of w !! DirPath c) eqn:Hseen.
  - by apply progress_seen.
  - apply progress_fresh; [done..|].
    eapply progress_weaken; [|by apply IH].
    intros c' Hc'. simpl in Hc'. apply elem_of_allComponents. eauto.
Qed.

(** When the components of [U] agree on their directories, a set of
    directories that holds those of [q]'s own components and is closed
    under "own components of the nested Program" holds the directory of
    every component in the tree of [q]. *)
Lemma closed_directories_cover (S : string → Prop) (U : list Component) :
  (∀ c c', c ∈ U → S (DirPath c) →
           c' ∈ ownComponents (Component_Program c) → S (DirPath c')) →
  ∀ q, (∀ c, c ∈ ownComponents q → S (DirPath c)) →
       (∀ c, c ∈ allComponents q → c ∈ U) →
       ∀ c, c ∈ allComponents q → S (DirPath c).
Proof.
  intros Hclosed q. induction q as [q IH] using Program_tree_ind.
  intros Hown HU c [Hc|(c0 & H0 & Hc)]%elem_of_allComponents; [auto|].
  assert (c0 ∈ allComponents q) as H0'
    by (apply elem_of_allComponents; by left).
  apply (IH c0 H0); [| |done].
  - intros c' Hc'. apply (Hclosed c0); auto.
  - intros c' Hc'. apply HU. by apply (allComponents_nested q c0).
Qed.

End walk_progress.

Lemma CollectComponents_entry (p : Program) dir c :
  CollectComponents p !! dir = Some c → DirPath c = dir ∧ c ∈ allComponents p.
Proof.
  pose proof (collectComponentsLogged_ok p empty_walk walk_ok_empty)
    as (Hfirst & _ & _).
  pose proof (collectComponentsLogged_progress p empty_walk)
    as (_ & (r & Hr & HU) & _ & _).
  rewrite collectComponentsLogged_components in Hfirst. simpl in *.
  fold (CollectComponents p) in Hfirst.
  intros Hc. rewrite Hfirst in Hc.
  apply first_at_Some in Hc as [Hin Hdir]. split; [done|].
  apply HU. by rewrite <- Hr.
Qed.

Lemma CollectComponents_covers (p : Program) :
  directories_agree (allComponents p) →
  ∀ c, c ∈ allComponents p →
       ∃ c1, CollectComponents p !! DirPath c = Some c1 ∧
             c1 ∈ allComponents p ∧
             Component_Program c1 = Component_Program c.
Proof.
  intros Hagree.
  pose proof (collectComponentsLogged_ok p empty_walk walk_ok_empty)
    as (Hfirst & _ & _).
  pose proof (collectComponentsLogged_progress p empty_walk)
    as (_ & _ & Hown & Hnew).
  rewrite collectComponentsLogged_components in *. simpl in *.
  fold (CollectComponents p) in *.
  assert (∀ c, c ∈ Reached (collectComponentsLogged p empty_walk) →
               is_Some (CollectComponents p !! DirPath c)) as Hreached.
  { intros c Hc. rewrite Hfirst. by apply first_at_elem_of. }
  assert (∀ c, c ∈ allComponents p →
               is_Some (CollectComponents p !! DirPath c)) as Hall.
  { apply (closed_directories_cover
             (λ dir, is_Some (CollectComponents p !! dir))
             (allComponents p)) with (q := p); try done.
    - intros c1 c' Hc1 [c2 Hc2] Hc'.
      destruct (CollectComponents_entry _ _ _ Hc2) as [Hdir Hc2'].
      assert (Component_Program c2 = Component_Program c1) as Heq
        by (by apply Hagree).
      apply Hreached, (Hnew _ _ Hc2); [apply lookup_empty|].
      by rewrite Heq.
    - intros c' Hc'. by apply Hreached, Hown. }
  intros c Hc. destruct (Hall c Hc) as [c1 Hc1]. exists c1.
  destruct (CollectComponents_entry _ _ _ Hc1) as [Hdir Hc1'].
  split_and!; [done..|]. by apply Hagree.
Qed.

(** C2.  [CollectComponents] returns a map with one entry per distinct
    component directory.  Along the walk ([Reached]: the Component nodes
    the loops range over, [Descended]: the directories whose nested
    Program is searched) each directory maps to the first reached
    component of that directory, stored under its own [DirPath]; a
    Component node whose directory is already a key is passed over, the
    map unchanged and its nested Program not descended; the own components of the root and of every stored
    component's Program are reached; and the directories descended into
    are exactly the keys of the map, each exactly once.  When Component
    nodes of one directory carry the same nested Program, every
    Component node of the tree has its directory in the map. *)
Theorem CollectComponents_one_entry_per_directory (p : Program) :
  components_of (CollectComponents_walk p) = CollectComponents p ∧
  (∀ dir, CollectComponents p !! dir
          = first_at dir (Reached (CollectComponents_walk p))) ∧
  (∀ dir c, CollectComponents p !! dir = Some c →
            DirPath c = dir ∧ c ∈ allComponents p) ∧
  (∀ w c nodes fs b,
      is_Some (components_of w !! DirPath c) →
      collectComponentsRecursive
        (mkProgram (ComponentNode c :: nodes) fs b) (components_of w)
      = collectComponentsRecursive (mkProgram nodes fs b) (components_of w) ∧
      collectComponentsLogged (mkProgram (ComponentNode c :: nodes) fs b) w
      = collectComponentsLogged (mkProgram nodes fs b)
          (mk_walk (components_of w) (Reached w ++ [c]) (Descended w))) ∧
  (∀ c, c ∈ ownComponents p → c ∈ Reached (CollectComponents_walk p)) ∧
  (∀ dir c, CollectComponents p !! dir = Some c →
            ∀ c', c' ∈ ownComponents (Component_Program c) →
                  c' ∈ Reached (CollectComponents_walk p)) ∧
  (∀ c, c ∈ Reached (CollectComponents_walk p) →
        c ∈ allComponents p ∧ is_Some (CollectComponents p !! DirPath c)) ∧
  NoDup (Descended (CollectComponents_walk p)) ∧
  (∀ dir, dir ∈ Descended (CollectComponents_walk p) ↔
          is_Some (CollectComponents p !! dir)) ∧
  (directories_agree (allComponents p) →
   ∀ c, c ∈ allComponents p → is_Some (CollectComponents p !! DirPath c)).
Proof.
  pose proof (collectComponentsLogged_ok p empty_walk walk_ok_empty)
    as (Hfirst & Hnd & Hdom).
  pose proof (collectComponentsLogged_progress p empty_walk)
    as (_ & (r & Hr & HU) & Hown & Hnew).
  fold (CollectComponents_walk p) in *.
  rewrite CollectComponents_walk_components in *. simpl in Hr.
  assert (∀ c, c ∈ Reached (CollectComponents_walk p) →
               c ∈ allComponents p ∧
               is_Some (CollectComponents p !! DirPath c)) as Hreached.
  { intros c Hc. split; [apply HU; by rewrite <- Hr|].
    rewrite Hfirst. by apply first_at_elem_of. }
  assert (∀ dir c, CollectComponents p !! dir = Some c →
                   DirPath c = dir ∧ c ∈ allComponents p) as Hentry.
  { intros dir c Hc. rewrite Hfirst in Hc.
    apply first_at_Some in Hc as [Hin Hdir]. split; [done|].
    by apply Hreached. }
  assert (∀ dir c, CollectComponents p !! dir = Some c →
            ∀ c', c' ∈ ownComponents (Component_Program c) →
                  c' ∈ Reached (CollectComponents_walk p)) as Hsearched.
  { intros dir c Hc. apply (Hnew dir c Hc). apply lookup_empty. }
  split_and!; try done.
  - intros w c nodes fs b [c0 Hc0].
    rewrite !collectComponentsRecursive_unfold,
      !collectComponentsLogged_unfold.
    simpl. unfold visit_node at 2, visit_node_logged at 2. simpl.
    by rewrite Hc0.
  - intros Hagree c Hc.
    destruct (CollectComponents_covers p Hagree c Hc) as (c1 & Hc1 & _).
    eauto.
Qed.

Lemma CollectComponents_one_entry_per_directory_witness :
  (CollectComponents twice_program
     = <["/work/mymodule" := mymodule_component "first"]>
         (<["/work/mymodule/inner" := inner_component]> ∅) ∧
   Descended (CollectComponents_walk twice_program)
     = ["/work/mymodule"; "/work/mymodule/inner"]) ∧
  is_Some (CollectComponents twice_program
             !! DirPath (mymodule_component "second")).
Proof.
  split; [split; vm_compute; reflexivity|].
  apply (CollectComponents_one_entry_per_directory twice_program).
  - intros c1 c2 H1 H2.
    apply list_elem_of_In in H1, H2. simpl in H1, H2.
    destruct H1 as [<-|[<-|[<-|[<-|[]]]]];
      destruct H2 as [<-|[<-|[<-|[<-|[]]]]];
      intros Heq; try reflexivity; discriminate Heq.
  - apply list_elem_of_In. simpl. auto.
Defined.

(** Without that agreement a directory of the tree can stay out of the
    map: the second node at /work/a is not descended, so the component
    it alone declares is never reached. *)
Example CollectComponents_disagreeing_directories :
  inner_component ∈ allComponents disagreeing_program ∧
  CollectComponents disagreeing_program !! DirPath inner_component = None ∧
  Descended (CollectComponents_walk disagreeing_program) = ["/work/a"].
Proof.
  split_and!; [|vm_compute; reflexivity..].
  apply list_elem_of_In. simpl. auto.
Qed.

(** ** Merging package snapshots over the tree *)

Section snapshot_merge.

Implicit Types (s : snapshots) (pkg : schema.Package) (p q : Program).
Implicit Types (log pkgs : list schema.Package).

Lemma first_named_app name log1 log2 :
  first_named name (log1 ++ log2) =
  match first_named name log1 with
  | Some pkg => Some pkg
  | None => first_named name log2
  end.
Proof.
  unfold first_named. induction log1 as [|pkg log1 IH]; simpl; [done|].
  by destruct (String.eqb (schema.Name pkg) name).
Qed.

Lemma first_named_Some name log pkg :
  first_named name log = Some pkg → pkg ∈ log ∧ schema.Name pkg = name.
Proof.
  intros H. apply find_some in H as [Hin Heq].
  split; [by apply list_elem_of_In|by apply String.eqb_eq].
Qed.

Lemma first_named_elem_of log pkg :
  pkg ∈ log → is_Some (first_named (schema.Name pkg) log).
Proof.
  intros H. destruct (first_named (schema.Name pkg) log) eqn:Hf; [eauto|].
  apply list_elem_of_In in H.
  pose proof (find_none _ _ Hf pkg H) as Hn. simpl in Hn.
  by rewrite String.eqb_refl in Hn.
Qed.

Lemma snapshots_ok_empty : snapshots_ok empty_snapshots.
Proof. intros name. apply lookup_empty. Qed.

Lemma merge_packages_Seen pkgs s :
  Seen (merge_packages pkgs s) = Seen s ++ pkgs.
Proof.
  unfold merge_packages. revert s.
  induction pkgs as [|pkg pkgs IH]; intros s; simpl.
  - by rewrite app_nil_r.
  - rewrite IH. destruct (seenPackages s !! schema.Name pkg); simpl;
      by rewrite <- app_assoc.
Qed.

Lemma merge_packages_ok pkgs s :
  snapshots_ok s → snapshots_ok (merge_packages pkgs s).
Proof.
  unfold merge_packages. revert s.
  induction pkgs as [|pkg pkgs IH]; intros s Hs; [done|].
  simpl. apply IH. intros name.
  destruct (seenPackages s !! schema.Name pkg) eqn:Hseen; simpl;
    rewrite first_named_app, <- Hs; simpl.
  - destruct (seenPackages s !! name) eqn:Hname; [done|].
    destruct (String.eqb_spec (schema.Name pkg) name) as [Heq|]; [|done].
    congruence.
  - destruct (String.eqb_spec (schema.Name pkg) name) as [<-|Hne].
    + by rewrite lookup_insert_eq, Hseen.
    + rewrite lookup_insert_ne by done.
      by destruct (seenPackages s !! name).
Qed.

Lemma PackageSnapshots_error_nil p e :
  (PackageSnapshots p).2 = Some e → (PackageSnapshots p).1 = [].
Proof.
  destruct (PackageSnapshots_cases p) as [(pkgs & _ & ->)|H].
  - done.
  - by destruct H as (? & ? & ? & ? & ? & ? & _ & _ & _ & _ & ->).
Qed.

Lemma elem_of_allPrograms_nested p c q :
  c ∈ allComponents p → q ∈ allPrograms (Component_Program c) →
  q ∈ allPrograms p.
Proof.
  unfold allPrograms. intros Hc [->|Hq]%elem_of_cons; right.
  - apply list_elem_of_fmap. eauto.
  - apply list_elem_of_fmap in Hq as (c' & -> & Hc').
    apply list_elem_of_fmap. exists c'. split; [done|].
    by apply (allComponents_nested p c).
Qed.

Lemma snapshot_of_tree_nested p c pkg :
  c ∈ allComponents p → snapshot_of_tree (Component_Program c) pkg →
  snapshot_of_tree p pkg.
Proof.
  intros Hc (q & Hq & Hin). exists q. split; [|done].
  by apply (elem_of_allPrograms_nested p c).
Qed.

Lemma elem_of_CollectComponents_values p c :
  c ∈ (map_to_list (CollectComponents p)).*2 ↔
  ∃ dir, CollectComponents p !! dir = Some c.
Proof.
  rewrite list_elem_of_fmap. split.
  - intros ([dir c'] & -> & H). exists dir. by apply elem_of_map_to_list.
  - intros [dir H]. exists (dir, c). split; [done|].
    by apply elem_of_map_to_list.
Qed.

Lemma CollectComponents_values_tree p c :
  c ∈ (map_to_list (CollectComponents p)).*2 → c ∈ allComponents p.
Proof.
  intros [dir H]%elem_of_CollectComponents_values.
  by apply (CollectComponents_entry p dir c).
Qed.

End snapshot_merge.

Section snapshot_collection.

Implicit Types (s : snapshots) (pkg : schema.Package) (p q : Program).

Lemma collectPackageSnapshots_log p s r :
  collectPackageSnapshots p s r → collected_log p s r.
Proof.
  revert p s r.
  apply (collectPackageSnapshots_mut_ind collected_log collected_range_log).
  - (* PackageSnapshots failed *)
    intros p s packages err Hsnap Hs. simpl. split; [done|].
    exists []. rewrite app_nil_r. split_and!; try done.
    + intros pkg H. by apply elem_of_nil in H.
    + intros pkgs. rewrite Hsnap. congruence.
  - (* merged, then the components *)
    intros p s packages range r Hsnap Hperm _ IH Hs.
    destruct (IH (merge_packages_ok packages s Hs))
      as (Hok & extra & Hseen & Htree & Hcover).
    split; [done|]. exists (packages ++ extra).
    rewrite merge_packages_Seen, <- app_assoc in Hseen.
    split_and!; [done| | | |].
    + intros pkg [Hin|Hin]%elem_of_app.
      * exists p. split; [by left|by rewrite Hsnap].
      * destruct (Htree pkg Hin) as (c & Hc & Hpkg).
        apply (snapshot_of_tree_nested p c); [|done].
        apply CollectComponents_values_tree. by rewrite <- Hperm.
    + intros pkgs. rewrite Hsnap. intros [= <-]. eauto.
    + intros _. by rewrite Hsnap.
    + intros He dir c Hc pkg Hpkg. apply elem_of_app. right.
      apply (Hcover He c); [|done]. rewrite Hperm.
      apply elem_of_CollectComponents_values. eauto.
  - (* no component left *)
    intros s Hs. simpl. split; [done|]. exists [].
    rewrite app_nil_r. split_and!; [done| |].
    + intros pkg H. by apply elem_of_nil in H.
    + intros _ c H. by apply elem_of_nil in H.
  - (* a component failed *)
    intros c range s s' err _ IH Hs.
    destruct (IH Hs) as (Hok & extra & Hseen & Htree & _). simpl in *.
    split; [done|]. exists extra. split_and!; [done| |done].
    intros pkg Hin. exists c. split; [by left|by apply Htree].
  - (* a component done, then the rest *)
    intros c range s s' r _ IH _ IHrange Hs.
    destruct (IH Hs) as (Hok & extra & Hseen & Htree & Hprefix & Hres & _).
    destruct (IHrange Hok) as (Hok' & extra' & Hseen' & Htree' & Hcover').
    simpl in *. split; [done|]. exists (extra ++ extra').
    split_and!.
    + by rewrite Hseen', Hseen, <- app_assoc.
    + intros pkg [Hin|Hin]%elem_of_app.
      * exists c. split; [by left|by apply Htree].
      * destruct (Htree' pkg Hin) as (c' & Hc' & Hpkg).
        exists c'. split; [by right|done].
    + intros He c' [->|Hc']%elem_of_cons pkg Hpkg; apply elem_of_app.
      * left. specialize (Hres eq_refl).
        destruct (PackageSnapshots (Component_Program c)) as [pkgs e] eqn:Hq.
        simpl in *. subst e. destruct (Hprefix pkgs eq_refl) as [rest ->].
        apply elem_of_app. by left.
      * right. by apply (Hcover' He c').
Qed.

Lemma collectPackageSnapshots_resolves p s r :
  collectPackageSnapshots p s r → tree_resolves p → r.2 = None.
Proof.
  revert p s r.
  apply (collectPackageSnapshots_mut_ind
           (λ p s r, tree_resolves p → r.2 = None)
           (λ cs s r,
              (∀ c, c ∈ cs → tree_resolves (Component_Program c)) →
              r.2 = None)).
  - intros p s packages err Hsnap Hres.
    specialize (Hres p). rewrite Hsnap in Hres. apply Hres. by left.
  - intros p s packages range r Hsnap Hperm _ IH Hres. apply IH.
    intros c Hc q Hq. apply Hres.
    apply (elem_of_allPrograms_nested p c); [|done].
    apply CollectComponents_values_tree. by rewrite <- Hperm.
  - done.
  - intros c range s s' err _ IH Hres. apply IH, Hres. by left.
  - intros c range s s' r _ _ _ IH Hres. apply IH.
    intros c' Hc'. apply Hres. by right.
Qed.

Lemma Program_depth_all p c :
  c ∈ allComponents p →
  Program_depth (Component_Program c) < Program_depth p.
Proof.
  revert c. induction p as [p IH] using Program_tree_ind.
  intros c [Hc|(c0 & H0 & Hc)]%elem_of_allComponents.
  - by apply Program_depth_own.
  - pose proof (IH c0 H0 c Hc). pose proof (Program_depth_own p c0 H0). lia.
Qed.

Lemma range_run_sound call cs :
  (∀ c s r, c ∈ cs → call (Component_Program c) s = Some r →
            collectPackageSnapshots (Component_Program c) s r) →
  ∀ s r, range_run call cs s = Some r → collect_range cs s r.
Proof.
  induction cs as [|c cs IH]; intros Hcall s r; simpl.
  - intros [= <-]. constructor.
  - destruct (call (Component_Program c) s) as [[s' [err|]]|] eqn:Hc;
      [| |done].
    + intros [= <-]. apply collect_range_failed. apply Hcall; [by left|done].
    + intros Hr. apply (collect_range_next c cs s s').
      * apply Hcall; [by left|done].
      * apply IH; [|done]. intros c' s0 r0 Hc'. apply Hcall. by right.
Qed.

Lemma range_run_total call cs :
  (∀ c s, c ∈ cs → is_Some (call (Component_Program c) s)) →
  ∀ s, is_Some (range_run call cs s).
Proof.
  induction cs as [|c cs IH]; intros Hcall s; simpl; [eauto|].
  destruct (Hcall c s) as [[s' [err|]] ->]; [by left|eauto|].
  apply IH. intros c' s0 Hc'. apply Hcall. by right.
Qed.

Lemma collectPackageSnapshots_run_sound fuel :
  ∀ p s r, collectPackageSnapshots_run fuel p s = Some r →
           collectPackageSnapshots p s r.
Proof.
  induction fuel as [|fuel IH]; intros p s r; simpl; [done|].
  destruct (PackageSnapshots p) as [packages [err|]] eqn:Hsnap.
  - intros [= <-]. by apply (collect_PackageSnapshots_failed p s packages).
  - intros Hr.
    apply (collect_PackageSnapshots_merged p s packages
             (map_to_list (CollectComponents p)).*2); [done..|].
    apply (range_run_sound (collectPackageSnapshots_run fuel)); [|done].
    intros c s0 r0 _. apply IH.
Qed.

Lemma collectPackageSnapshots_run_total fuel :
  ∀ p s, Program_depth p ≤ fuel →
         is_Some (collectPackageSnapshots_run fuel p s).
Proof.
  induction fuel as [|fuel IH]; intros p s Hd; simpl.
  - destruct p. simpl in Hd. lia.
  - destruct (PackageSnapshots p) as [packages [err|]] eqn:Hsnap; [eauto|].
    apply range_run_total. intros c s0 Hc. apply IH.
    apply CollectComponents_values_tree, Program_depth_all in Hc. lia.
Qed.

End snapshot_collection.

Lemma CollectNestedPackageSnapshots_total (p : Program) :
  ∃ ret, CollectNestedPackageSnapshots p ret.
Proof.
  destruct (collectPackageSnapshots_run_total
              (Program_depth p) p empty_snapshots (le_n _)) as [[s e] Hrun].
  exists (seenPackages s, e). exists s. split; [|done].
  by apply (collectPackageSnapshots_run_sound (Program_depth p)).
Qed.

Lemma aws_parent_program_resolves : tree_resolves aws_parent_program.
Proof.
  intros q Hq. apply list_elem_of_In in Hq. simpl in Hq.
  destruct Hq as [<-|[<-|[]]]; vm_compute; reflexivity.
Qed.

Lemma aws_parent_program_snapshots pkg :
  snapshot_of_tree aws_parent_program pkg → schema.Name pkg = "aws".
Proof.
  intros (q & Hq & Hin). apply list_elem_of_In in Hq. simpl in Hq.
  destruct Hq as [<-|[<-|[]]]; vm_compute in Hin;
    apply list_elem_of_singleton in Hin; by subst.
Qed.

(** C3.  [CollectNestedPackageSnapshots] always returns, and the map it
    returns holds one snapshot per package name: along the log of the
    snapshots the merge looked at (all of them snapshots of programs of
    the tree, the root's own first, and on success those of every
    collected component's program), each name maps to the first logged
    snapshot of that name; later ones of the same name are dropped.  So
    a name the root references keeps the root's snapshot.  On success,
    when Component nodes of one directory carry the same nested
    Program, every package name of the tree has its entry.  For a
    parent referencing aws (snapshot 1.0.0) and a nested component
    referencing aws 2.0.0 the result is the single entry aws with the
    parent's snapshot. *)
Theorem CollectNestedPackageSnapshots_first_seen_wins :
  (∀ p, ∃ ret, CollectNestedPackageSnapshots p ret) ∧
  (∀ p ret,
     CollectNestedPackageSnapshots p ret →
     ∃ log,
       (∀ name, ret.1 !! name = first_named name log) ∧
       (∀ name pkg, ret.1 !! name = Some pkg →
                    schema.Name pkg = name ∧ snapshot_of_tree p pkg) ∧
       (∀ pkg, pkg ∈ log →
               snapshot_of_tree p pkg ∧ is_Some (ret.1 !! schema.Name pkg)) ∧
       (∀ pkgs, PackageSnapshots p = (pkgs, None) →
          (∃ rest, log = pkgs ++ rest) ∧
          ∀ pkg, pkg ∈ pkgs →
                 ret.1 !! schema.Name pkg
                 = first_named (schema.Name pkg) pkgs) ∧
       (ret.2 = None →
        ∀ dir c, CollectComponents p !! dir = Some c →
          ∀ pkg, pkg ∈ (PackageSnapshots (Component_Program c)).1 →
                 pkg ∈ log) ∧
       (ret.2 = None → directories_agree (allComponents p) →
        ∀ pkg, snapshot_of_tree p pkg →
               is_Some (ret.1 !! schema.Name pkg))) ∧
  (∀ ret, CollectNestedPackageSnapshots aws_parent_program ret →
          ret = (<["aws" := aws_v1]> ∅, None)).
Proof.
  assert (∀ p ret,
     CollectNestedPackageSnapshots p ret →
     ∃ log,
       (∀ name, ret.1 !! name = first_named name log) ∧
       (∀ pkg, pkg ∈ log → snapshot_of_tree p pkg) ∧
       (∀ pkgs, PackageSnapshots p = (pkgs, None) →
                ∃ rest, log = pkgs ++ rest) ∧
       (ret.2 = None →
        ∀ dir c, CollectComponents p !! dir = Some c →
          ∀ pkg, pkg ∈ (PackageSnapshots (Component_Program c)).1 →
                 pkg ∈ log)) as Hlog.
  { intros p [m e] (s & Hrun & <-). simpl in *.
    destruct (collectPackageSnapshots_log _ _ _ Hrun snapshots_ok_empty)
      as (Hok & extra & Hseen & Htree & Hprefix & _ & Hcover).
    simpl in *. subst. exists (Seen s). by split_and!. }
  split_and!.
  - apply CollectNestedPackageSnapshots_total.
  - intros p ret Hret.
    destruct (Hlog p ret Hret) as (log & Hfirst & Htree & Hprefix & Hcover).
    exists log. split_and!; try done.
    + intros name pkg Hpkg. rewrite Hfirst in Hpkg.
      apply first_named_Some in Hpkg as [Hin Hname]. auto.
    + intros pkg Hin. split; [auto|].
      rewrite Hfirst. by apply first_named_elem_of.
    + intros pkgs Hsnap. destruct (Hprefix pkgs Hsnap) as [rest ->].
      split; [eauto|]. intros pkg Hin.
      rewrite Hfirst, first_named_app.
      by destruct (first_named_elem_of pkgs pkg Hin) as [pkg' ->].
    + intros He Hagree pkg (q & Hq & Hin).
      rewrite Hfirst. apply first_named_elem_of.
      apply elem_of_cons in Hq as [->|Hq].
      * destruct Hret as (s & Hrun & _).
        pose proof (collectPackageSnapshots_log _ _ _ Hrun snapshots_ok_empty)
          as (_ & _ & _ & _ & _ & Hres & _).
        specialize (Hres He).
        destruct (PackageSnapshots p) as [pkgs e] eqn:Hsnap. simpl in *.
        subst e. destruct (Hprefix pkgs eq_refl) as [rest ->].
        apply elem_of_app. by left.
      * apply list_elem_of_fmap in Hq as (c & -> & Hc).
        destruct (CollectComponents_covers p Hagree c Hc)
          as (c1 & Hc1 & _ & Heq).
        apply (Hcover He _ c1 Hc1). by rewrite Heq.
  - intros [m e] Hret.
    destruct (Hlog _ _ Hret) as (log & Hfirst & Htree & Hprefix & _).
    destruct Hret as (s & Hrun & Hm). simpl in *.
    pose proof (collectPackageSnapshots_resolves _ _ _ Hrun
                  aws_parent_program_resolves) as He.
    simpl in He. subst e. f_equal.
    destruct (Hprefix [aws_v1]) as [rest ->]; [by vm_compute|].
    apply map_eq. intros name. rewrite Hfirst.
    destruct (decide (name = "aws")) as [->|Hne].
    + by rewrite lookup_insert_eq.
    + rewrite lookup_insert_ne, lookup_empty by done.
      destruct (first_named name ([aws_v1] ++ rest)) as [pkg|] eqn:Hf;
        [|done].
      apply first_named_Some in Hf as [Hin Hname].
      apply Htree, aws_parent_program_snapshots in Hin. congruence.
Qed.

Lemma CollectNestedPackageSnapshots_first_seen_wins_witness :
  CollectNestedPackageSnapshots aws_parent_program
    (<["aws" := aws_v1]> ∅, None) ∧
  ∃ log,
    (∀ name, (<["aws" := aws_v1]> ∅ : gmap string schema.Package) !! name
             = first_named name log) ∧
    (∃ rest, log = [aws_v1] ++ rest) ∧
    aws_v2 ∈ log.
Proof.
  assert (CollectNestedPackageSnapshots aws_parent_program
            (<["aws" := aws_v1]> ∅, None)) as Hret.
  { eexists. split.
    - apply (collectPackageSnapshots_run_sound 2). vm_compute. reflexivity.
    - vm_compute. reflexivity. }
  split; [exact Hret|].
  destruct (proj1 (proj2 CollectNestedPackageSnapshots_first_seen_wins)
              aws_parent_program _ Hret)
    as (log & Hfirst & _ & _ & Hroot & Hcover & _).
  exists log. split; [exact Hfirst|]. split.
  - apply (Hroot [aws_v1]). vm_compute. reflexivity.
  - apply (Hcover eq_refl "/work/nested"
             (component_at "nested" "./nested" "/work/nested"
                aws_nested_program)).
    + vm_compute. reflexivity.
    + vm_compute. apply list_elem_of_In. simpl. auto.
Defined.

(** ** Evaluation on the sample programs *)

Example filepath_Join_cleans :
  filepath.Join "out" "./mymodule" = "out/mymodule" ∧
  filepath.Join "out" "../x/./y//z/.." = "x/y" ∧
  filepath.Join "/" "../a" = "/a" ∧
  filepath.Join "out" "" = "out" ∧
  filepath.Join "" "" = "".
Proof. by vm_compute. Qed.

Example sort_Strings_bytewise :
  sort_Strings ["random"; "aws"; "Zeta"; "aws-native"]
  = ["Zeta"; "aws"; "aws-native"; "random"].
Proof. by vm_compute. Qed.

Example PackageReferences_two_refs :
  PackageReferences two_refs_program = [aws_partial_ref; random_ref].
Proof. by vm_compute. Qed.

Example PackageSnapshots_broken_refs :
  PackageSnapshots broken_refs_program
  = ([], Some (fmt_Errorf_w "defining package 'broken'"
                 (errors_New "schema not found"))) ∧
  (Error <$> (PackageSnapshots broken_refs_program).2)
  = Some "defining package 'broken': schema not found".
Proof. by vm_compute. Qed.

Example Packages_two_refs :
  Packages two_refs_program = Returned [Some aws_full; Some random_pkg] ∧
  Packages broken_refs_program
  = Panicked (fmt_Errorf_w "loading package definition"
                (errors_New "schema not found")).
Proof. by vm_compute. Qed.

Example collectPackageSnapshots_run_aws :
  collectPackageSnapshots_run 2 aws_parent_program empty_snapshots
  = Some (mk_snapshots (<["aws" := aws_v1]> ∅) [aws_v1; aws_v2], None).
Proof. by vm_compute. Qed.

Example ConfigVariables_mymodule_program :
  ConfigVariables mymodule_program = [mkConfigVariable new_node "region"] ∧
  OutputVariables mymodule_program = [].
Proof. by vm_compute. Qed.

(** * Further properties *)

(** ** The node flags as a state machine *)

Lemma state_of_do_call (r : node) (c : call) :
  state_of (do_call r c) = next_state (state_of r) c.
Proof.
  destruct r as [[] [] ds], c; reflexivity.
Qed.

(** X1.  The two flags implement the three-state machine Unbound,
    Binding, Bound: over every call sequence from every node the state
    read off the flags follows [next_state] ([markBinding] moves only
    Unbound, to Binding; [markBound] moves every state to Bound;
    [setDependencies] moves nothing), and [isBinding] and [isBound] are
    the tests for Binding and Bound, so they are never both true. *)
Theorem node_flags_three_states (r : node) (cs : list call) :
  state_of (run cs r) = fold_left next_state cs (state_of r) ∧
  (isBinding (run cs r) = true ↔ state_of (run cs r) = Binding) ∧
  (isBound (run cs r) = true ↔ state_of (run cs r) = Bound) ∧
  isBinding (run cs r) && isBound (run cs r) = false.
Proof.
  split_and!.
  - revert r. induction cs as [|c cs IH]; intros r; [done|].
    rewrite run_cons, IH, state_of_do_call. reflexivity.
  - unfold isBinding, state_of.
    destruct (binding (run cs r)), (bound (run cs r)); simpl; naive_solver.
  - unfold isBound, state_of.
    destruct (binding (run cs r)), (bound (run cs r)); simpl; naive_solver.
  - unfold isBinding, isBound.
    by destruct (binding (run cs r)), (bound (run cs r)).
Qed.

Lemma node_flags_three_states_witness :
  state_of (run [MarkBinding; MarkBinding] new_node) = Binding.
Proof.
  apply (node_flags_three_states new_node [MarkBinding; MarkBinding]).
  reflexivity.
Defined.

Lemma deps_do_call_other (r : node) (c : call) :
  ¬ is_SetDependencies c → deps (do_call r c) = deps r.
Proof. destruct c; simpl; tauto. Qed.

Lemma deps_run_other (cs : list call) (r : node) :
  Forall (λ c, ¬ is_SetDependencies c) cs → deps (run cs r) = deps r.
Proof.
  intros H. revert r. induction H as [|c cs Hc _ IH]; intros r; [done|].
  by rewrite run_cons, IH, deps_do_call_other.
Qed.

(** X2.  [getDependencies] returns what the latest [setDependencies]
    call stored, whatever [markBinding] and [markBound] calls come
    before, between or after; without any [setDependencies] call it
    returns what the node held. *)
Theorem getDependencies_latest_setDependencies
    (r : node) (before after : list call) (nodes : list NodeRef) :
  Forall (λ c, ¬ is_SetDependencies c) after →
  getDependencies (run (before ++ SetDependencies nodes :: after) r) = nodes ∧
  getDependencies (run after r) = getDependencies r.
Proof.
  intros H. unfold getDependencies. split.
  - rewrite run_app, run_cons. by rewrite deps_run_other.
  - by apply deps_run_other.
Qed.

Lemma getDependencies_latest_setDependencies_witness :
  getDependencies
    (run ([MarkBinding; SetDependencies ["a"]]
            ++ SetDependencies ["b"; "c"] :: [MarkBound]) new_node)
  = ["b"; "c"].
Proof.
  apply (getDependencies_latest_setDependencies new_node
           [MarkBinding; SetDependencies ["a"]] [MarkBound] ["b"; "c"]).
  repeat constructor; simpl; tauto.
Defined.

(** X3.  The flags depend only on which mark calls were made, not on
    their order or number: two call sequences that contain the same
    calls leave [isBinding] and [isBound] equal. *)
Theorem node_flags_order_insensitive (r : node) (cs cs' : list call) :
  (∀ c, c ∈ cs ↔ c ∈ cs') →
  isBinding (run cs r) = isBinding (run cs' r) ∧
  isBound (run cs r) = isBound (run cs' r).
Proof.
  intros H.
  assert (bound (run cs r) = bound (run cs' r)) as Hb.
  { apply eq_true_iff_eq. rewrite !bound_run, (H MarkBound). done. }
  assert (binding (run cs r) = binding (run cs' r)) as Hg.
  { apply eq_true_iff_eq. rewrite !binding_run, (H MarkBinding). done. }
  unfold isBinding, isBound. by rewrite Hb, Hg.
Qed.

Lemma node_flags_order_insensitive_witness :
  isBinding (run [MarkBound; MarkBinding] new_node)
  = isBinding (run [MarkBinding; MarkBound; MarkBinding] new_node).
Proof.
  apply (node_flags_order_insensitive new_node
           [MarkBound; MarkBinding] [MarkBinding; MarkBound; MarkBinding]).
  intros c. rewrite !elem_of_cons. tauto.
Defined.

(** ** More on the package lists *)

Lemma omap_lookup_map_to_list (m : gmap string schema.PackageReference)
    (l : list (string * schema.PackageReference)) :
  Forall (λ kv, m !! kv.1 = Some kv.2) l →
  omap (λ k, m !! k) l.*1 = l.*2.
Proof.
  induction 1 as [|[k v] l Hkv _ IH]; [done|].
  simpl in *. rewrite Hkv. f_equal. exact IH.
Qed.

Lemma PackageReferences_values (p : Program) :
  PackageReferences p ≡ₚ (map_to_list (refs_of p)).*2.
Proof.
  unfold PackageReferences, PackageReferences_from.
  fold (refs_of p). rewrite lookup_values_omap.
  rewrite sort_Strings_Permutation. unfold map_keys.
  rewrite omap_lookup_map_to_list; [done|].
  apply Forall_forall. intros [k v] H. by apply elem_of_map_to_list.
Qed.

Lemma PackageReferences_length (p : Program) :
  length (PackageReferences p) = size (refs_of p).
Proof.
  rewrite PackageReferences_values, length_fmap.
  apply length_map_to_list.
Qed.

(** X4.  [PackageReferences] loses and repeats nothing: it is a
    rearrangement of the values of the referenced-package map, one
    element per key.  A successful [PackageSnapshots] and a returning
    [Packages] have that same length, and for a program that references
    no package the three calls give the empty list without error or
    panic. *)
Theorem package_lists_complete (p : Program) :
  PackageReferences p ≡ₚ (map_to_list (refs_of p)).*2 ∧
  length (PackageReferences p) = size (refs_of p) ∧
  (∀ pkgs, PackageSnapshots p = (pkgs, None) →
           length pkgs = size (refs_of p)) ∧
  (∀ defs, Packages p = Returned defs → length defs = size (refs_of p)) ∧
  (refs_of p = ∅ →
   PackageReferences p = [] ∧ PackageSnapshots p = ([], None) ∧
   Packages p = Returned []).
Proof.
  split_and!.
  - apply PackageReferences_values.
  - apply PackageReferences_length.
  - intros pkgs Hsnap.
    destruct (PackageSnapshots_cases p) as [(pkgs' & Hall & Heq)|H].
    + assert (pkgs' = pkgs) as -> by congruence.
      rewrite <- (Forall2_length _ _ _ Hall).
      rewrite <- PackageReferences_length.
      apply (Forall2_length _ _ _ (PackageReferences_keys p)).
    + destruct H as (? & ? & ? & ? & ? & ? & _ & _ & _ & _ & Heq).
      congruence.
  - intros defs Hdefs.
    assert (length (replicate (length (PackageReferences p))
                              (None : option schema.Package))
            = 0 + length (PackageReferences p)) as Hlen
      by (by rewrite length_replicate).
    destruct (Packages_loop_cases _ _ _ Hlen)
      as [(ds & Hall & Heq)|(ref' & err' & _ & _ & Heq)];
      fold (Packages p) in Heq; simpl in Heq; [|congruence].
    assert (defs = Some <$> ds) as -> by congruence.
    rewrite length_fmap, <- (Forall2_length _ _ _ Hall).
    apply PackageReferences_length.
  - intros Hempty.
    assert (PackageReferences p = []) as Hrefs.
    { apply length_zero_iff_nil.
      rewrite PackageReferences_length, Hempty. apply map_size_empty. }
    split_and!; [done| |].
    + unfold PackageSnapshots, PackageSnapshots_from. fold (refs_of p).
      rewrite Hempty. unfold map_keys. by rewrite map_to_list_empty.
    + unfold Packages. by rewrite Hrefs.
Qed.

Lemma package_lists_complete_witness :
  length [aws_v1; random_pkg] = size (refs_of two_refs_program).
Proof.
  apply (package_lists_complete two_refs_program). by vm_compute.
Defined.

Lemma omap_ext_elem_of {A B} (f : A → option B) (g : A → option B)
    (l : list A) :
  (∀ x, x ∈ l → f x = g x) → omap f l = omap g l.
Proof.
  induction l as [|x l IH]; intros H; [done|]. simpl.
  rewrite (H x) by (by left).
  change (list_omap A B f l) with (omap f l).
  change (list_omap A B g l) with (omap g l).
  rewrite IH; [done|]. intros y Hy. apply H. by right.
Qed.

Lemma map_keys_insert_fresh {V} (m : gmap string V) k v :
  m !! k = None → map_keys (<[k := v]> m) ≡ₚ k :: map_keys m.
Proof.
  intros H. unfold map_keys. by rewrite map_to_list_insert.
Qed.

Lemma sort_Strings_split (keys : list string) (k : string) :
  NoDup (k :: keys) →
  ∃ l1 l2, sort_Strings (k :: keys) = l1 ++ k :: l2 ∧
           sort_Strings keys = l1 ++ l2 ∧ (k ∉ l1) ∧ (k ∉ l2).
Proof.
  intros Hnd.
  assert (k ∈ sort_Strings (k :: keys)) as Hin
    by (rewrite sort_Strings_Permutation; by left).
  apply list_elem_of_split in Hin as (l1 & l2 & Hsplit).
  exists l1, l2.
  pose proof (sort_Strings_Permutation (k :: keys)) as Hperm.
  pose proof (sort_Strings_sorted (k :: keys)) as Hsorted.
  rewrite Hsplit in Hperm, Hsorted.
  assert (keys ≡ₚ l1 ++ l2) as Hkeys.
  { eapply Permutation_cons_app_inv. symmetry. exact Hperm. }
  split_and!; [done| | |].
  - apply (StronglySorted_unique string_le);
      [apply sort_Strings_sorted| |by rewrite sort_Strings_Permutation].
    apply StronglySorted_app in Hsorted as (Hcross & Hs1 & Hs2).
    apply StronglySorted_cons in Hs2 as [_ Hs2].
    apply StronglySorted_app_2; [|done..].
    intros x1 x2 H1 H2. apply Hcross; [done|by right].
  - apply NoDup_cons in Hnd as [Hk _]. rewrite Hkeys in Hk.
    intros H. apply Hk, elem_of_app. by left.
  - apply NoDup_cons in Hnd as [Hk _]. rewrite Hkeys in Hk.
    intros H. apply Hk, elem_of_app. by right.
Qed.

Lemma PackageReferences_insert_split
    (m : gmap string schema.PackageReference) k ref :
  m !! k = None →
  ∃ l1 l2,
    sort_Strings (map_keys (<[k := ref]> m)) = l1 ++ k :: l2 ∧
    sort_Strings (map_keys m) = l1 ++ l2 ∧ (k ∉ l1) ∧ (k ∉ l2).
Proof.
  intros Hk.
  destruct (sort_Strings_split (map_keys m) k) as (l1 & l2 & H1 & H2 & H3).
  { apply NoDup_cons. split; [|apply NoDup_map_keys].
    rewrite elem_of_map_keys, Hk. by intros [? ?]. }
  exists l1, l2. split; [|done].
  rewrite <- H1. apply sort_Strings_range. by apply map_keys_insert_fresh.
Qed.

Lemma lookup_values_insert_split
    (m : gmap string schema.PackageReference) k ref l1 l2 :
  k ∉ l1 → k ∉ l2 →
  lookup_values (<[k := ref]> m) (l1 ++ k :: l2)
  = lookup_values m l1 ++ ref :: lookup_values m l2.
Proof.
  intros H1 H2. rewrite !lookup_values_omap, omap_app. simpl.
  rewrite lookup_insert_eq.
  change (list_omap _ _ ?f l2) with (omap f l2).
  f_equal; [|f_equal]; apply omap_ext_elem_of; intros x Hx;
    apply lookup_insert_ne; intros ->; done.
Qed.

(** X5.  Storing a reference leaves the others where they were.  When
    the binder stores [ref] under a key the program did not reference,
    [PackageReferences] is the old list with [ref] put in at its place
    in key order; when the key was already referenced, [ref] takes the
    place of the old reference and the rest of the list is the same. *)
Theorem PackageReferences_with_reference
    (p : Program) (k : string) (ref : schema.PackageReference) :
  (refs_of p !! k = None →
   ∃ r1 r2, PackageReferences p = r1 ++ r2 ∧
            PackageReferences (with_reference k ref p) = r1 ++ ref :: r2) ∧
  (∀ old, refs_of p !! k = Some old →
   ∃ r1 r2, PackageReferences p = r1 ++ old :: r2 ∧
            PackageReferences (with_reference k ref p) = r1 ++ ref :: r2).
Proof.
  assert (∀ q, PackageReferences q
               = lookup_values (refs_of q) (sort_Strings (map_keys (refs_of q))))
    as Hunfold by done.
  assert (refs_of (with_reference k ref p) = <[k := ref]> (refs_of p))
    as Hrefs by done.
  split.
  - intros Hk.
    destruct (PackageReferences_insert_split (refs_of p) k ref Hk)
      as (l1 & l2 & Hs' & Hs & H1 & H2).
    exists (lookup_values (refs_of p) l1), (lookup_values (refs_of p) l2).
    rewrite !Hunfold, Hrefs, Hs', Hs. split.
    + by rewrite !lookup_values_omap, omap_app.
    + by apply lookup_values_insert_split.
  - intros old Hk.
    set (m0 := delete k (refs_of p)).
    assert (m0 !! k = None) as Hk0 by apply lookup_delete_eq.
    assert (refs_of p = <[k := old]> m0) as Hm.
    { unfold m0. by rewrite insert_delete_id. }
    destruct (PackageReferences_insert_split m0 k old Hk0)
      as (l1 & l2 & Hs' & _ & H1 & H2).
    exists (lookup_values m0 l1), (lookup_values m0 l2).
    rewrite !Hunfold, Hrefs, Hm, insert_insert_eq.
    assert (sort_Strings (map_keys (<[k := ref]> m0)) = l1 ++ k :: l2) as Hs''.
    { rewrite <- Hs'. apply sort_Strings_range.
      by rewrite !map_keys_insert_fresh. }
    rewrite Hs', Hs''. split; by apply lookup_values_insert_split.
Qed.

Lemma PackageReferences_with_reference_witness :
  (∃ r1 r2,
      PackageReferences two_refs_program = r1 ++ r2 ∧
      PackageReferences (with_reference "broken" broken_ref two_refs_program)
      = r1 ++ broken_ref :: r2) ∧
  (∃ r1 r2,
      PackageReferences two_refs_program = r1 ++ random_ref :: r2 ∧
      PackageReferences (with_reference "random" broken_ref two_refs_program)
      = r1 ++ broken_ref :: r2).
Proof.
  split.
  - apply (PackageReferences_with_reference two_refs_program
             "broken" broken_ref). by vm_compute.
  - apply (PackageReferences_with_reference two_refs_program
             "random" broken_ref). by vm_compute.
Defined.

Lemma first_failure_unique {A} (P : A → Prop)
    (a1 : list A) (x1 : A) (b1 : list A) (a2 : list A) (x2 : A) (b2 : list A) :
  a1 ++ x1 :: b1 = a2 ++ x2 :: b2 →
  Forall P a1 → ¬ P x1 → Forall P a2 → ¬ P x2 →
  a1 = a2 ∧ x1 = x2.
Proof.
  revert a2. induction a1 as [|y a1 IH]; intros [|z a2] Heq H1 Hx1 H2 Hx2;
    simplify_eq/=.
  - done.
  - apply Forall_cons in H2 as [? _]. done.
  - apply Forall_cons in H1 as [? _]. done.
  - apply Forall_cons in H1 as [_ H1]. apply Forall_cons in H2 as [_ H2].
    destruct (IH a2) as [-> ->]; done.
Qed.

Lemma Packages_loop_first (refs : list schema.PackageReference)
    (i : nat) (defs : list (option schema.Package)) :
  length defs = i + length refs →
  (∃ ds, Forall2 (λ ref d, schema.Definition_ ref = Ok d) refs ds ∧
         Packages_loop i refs defs = Returned (take i defs ++ (Some <$> ds))) ∨
  (∃ rs1 ref rs2 err,
      refs = rs1 ++ ref :: rs2 ∧
      Forall (λ r, ∃ d, schema.Definition_ r = Ok d) rs1 ∧
      schema.Definition_ ref = Err err ∧
      Packages_loop i refs defs =
        Panicked (fmt_Errorf_w "loading package definition" err)).
Proof.
  revert i defs. induction refs as [|ref refs IH]; intros i defs Hlen.
  - left. exists []. split; [constructor|]. simpl in *.
    rewrite app_nil_r, take_ge; [done|lia].
  - simpl in *. destruct (schema.Definition_ ref) as [d|err] eqn:Hd.
    + destruct (IH (S i) (<[i := Some d]> defs))
        as [(ds & Hall & Heq)|(rs1 & ref' & rs2 & err & -> & Hok & Hr & Heq)].
      { rewrite length_insert. lia. }
      * left. exists (d :: ds). split; [by constructor|].
        rewrite Heq. f_equal.
        rewrite (take_S_r _ _ (Some d)).
        { rewrite take_insert_ge by lia. by rewrite <- app_assoc. }
        apply list_lookup_insert_eq. lia.
      * right. exists (ref :: rs1), ref', rs2, err.
        split_and!; [done| |done..]. apply Forall_cons. eauto.
    + right. exists [], ref, refs, err. by split_and!.
Qed.

Lemma Packages_first (p : Program) :
  (∃ ds, Forall2 (λ ref d, schema.Definition_ ref = Ok d)
                 (PackageReferences p) ds ∧
         Packages p = Returned (Some <$> ds)) ∨
  (∃ rs1 ref rs2 err,
      PackageReferences p = rs1 ++ ref :: rs2 ∧
      Forall (λ r, ∃ d, schema.Definition_ r = Ok d) rs1 ∧
      schema.Definition_ ref = Err err ∧
      Packages p = Panicked (fmt_Errorf_w "loading package definition" err)).
Proof.
  apply (Packages_loop_first (PackageReferences p) 0).
  by rewrite length_replicate.
Qed.

Lemma PackageSnapshots_first (p : Program) :
  (∃ pkgs, Forall2 (λ ref pkg, resolve ref = Ok pkg)
                   (PackageReferences p) pkgs ∧
           PackageSnapshots p = (pkgs, None)) ∨
  (∃ rs1 ref rs2 err,
      PackageReferences p = rs1 ++ ref :: rs2 ∧
      Forall (λ r, ∃ pkg, resolve r = Ok pkg) rs1 ∧
      resolve ref = Err err ∧
      PackageSnapshots p =
        ([], Some (fmt_Errorf_w
                     ("defining package '" +:+ schema.ref_Name ref +:+ "'")
                     err))).
Proof.
  pose proof (PackageReferences_keys p) as Hkeys.
  destruct (PackageSnapshots_cases p)
    as [(pkgs & Hall & Heq)
       |(ks1 & k & ks2 & pkgs & ref & err & Hs & Hall & Hk & Hr & Heq)].
  - left. exists pkgs. split; [|done].
    by apply (resolves_to_via_refs _ _ _ _ Hkeys).
  - right. rewrite Hs in Hkeys.
    apply Forall2_app_inv_l in Hkeys as (rs1 & rest & H1 & H2 & Hrefs).
    apply Forall2_cons_inv_l in H2 as (ref' & rs2 & Hk' & H2 & ->).
    assert (ref' = ref) as -> by congruence.
    exists rs1, ref, rs2, err. split_and!; [done| |done..].
    apply (resolves_to_via_refs _ _ _ _ H1) in Hall.
    clear -Hall. induction Hall; constructor; eauto.
Qed.

Lemma Forall2_Ok_elem_of {A} (f : schema.PackageReference → result A)
    (refs : list schema.PackageReference) (xs : list A)
    (ref : schema.PackageReference) :
  Forall2 (λ r x, f r = Ok x) refs xs → ref ∈ refs → ∃ x, f ref = Ok x.
Proof.
  induction 1 as [|r x refs xs Hr _ IH]; intros Hin.
  - by apply elem_of_nil in Hin.
  - apply elem_of_cons in Hin as [->|Hin]; eauto.
Qed.

Lemma Forall2_Ok_agree {A}
    (f : schema.PackageReference → result A)
    (g : schema.PackageReference → result A)
    (refs : list schema.PackageReference) (xs ys : list A) :
  (∀ ref, ref ∈ refs → f ref = g ref) →
  Forall2 (λ r x, f r = Ok x) refs xs →
  Forall2 (λ r y, g r = Ok y) refs ys → xs = ys.
Proof.
  intros Hfg H. revert ys.
  induction H as [|r x refs xs Hr _ IH]; intros ys;
    inversion 1 as [|? y ? ys' Hy Htl]; subst; [done|].
  f_equal.
  - rewrite (Hfg r) in Hr by (by left). congruence.
  - apply IH; [|done]. intros ref Href. apply Hfg. by right.
Qed.

(** X6.  On a program whose referenced packages are all full packages,
    [Packages] and [PackageSnapshots] agree: one returns a list exactly
    when the other returns the same list without error, and when one
    fails so does the other, on the same reference, each wrapping the
    same loader error. *)
Theorem Packages_agrees_with_PackageSnapshots (p : Program) :
  no_partial_reference p →
  (∀ pkgs, PackageSnapshots p = (pkgs, None) ↔
           Packages p = Returned (Some <$> pkgs)) ∧
  (∀ e, (PackageSnapshots p).2 = Some e →
        ∃ e', Packages p = Panicked e' ∧ Unwrap e' = Unwrap e) ∧
  (∀ e', Packages p = Panicked e' →
         ∃ e, (PackageSnapshots p).2 = Some e ∧ Unwrap e = Unwrap e').
Proof.
  intros Hfull.
  assert (∀ ref, ref ∈ PackageReferences p →
                 resolve ref = schema.Definition_ ref) as Hres.
  { intros ref [k Hk]%elem_of_PackageReferences.
    by destruct (Hfull k ref Hk) as (name & definition & ->). }
  destruct (PackageSnapshots_first p)
    as [(pkgs & Hall & Hsnap)
       |(rs1 & ref & rs2 & err & Hrefs & Hok & Herr & Hsnap)];
    destruct (Packages_first p)
      as [(ds & Hall' & Hpk)
         |(rs1' & ref' & rs2' & err' & Hrefs' & Hok' & Herr' & Hpk)];
    rewrite Hsnap, Hpk.
  - assert (pkgs = ds) as -> by (by apply (Forall2_Ok_agree _ _ _ _ _ Hres)).
    split_and!; [|done..]. intros pkgs. split.
    + by intros [= <-].
    + intros [= Heq]. apply (inj (fmap Some)) in Heq. by subst.
  - exfalso.
    assert (ref' ∈ PackageReferences p) as Hin.
    { rewrite Hrefs', elem_of_app, elem_of_cons. auto. }
    destruct (Forall2_Ok_elem_of _ _ _ _ Hall Hin) as [x Hx].
    rewrite (Hres _ Hin) in Hx. congruence.
  - exfalso.
    assert (ref ∈ PackageReferences p) as Hin.
    { rewrite Hrefs, elem_of_app, elem_of_cons. auto. }
    destruct (Forall2_Ok_elem_of _ _ _ _ Hall' Hin) as [x Hx].
    rewrite <- (Hres _ Hin) in Hx. congruence.
  - assert (ref ∈ PackageReferences p) as Hin.
    { rewrite Hrefs, elem_of_app, elem_of_cons. auto. }
    destruct (first_failure_unique
                (λ r, ∃ d, schema.Definition_ r = Ok d)
                rs1 ref rs2 rs1' ref' rs2') as [-> ->].
    + congruence.
    + apply Forall_forall. intros r Hr.
      rewrite Forall_forall in Hok. destruct (Hok r Hr) as [pkg Hpkg].
      exists pkg. rewrite <- Hres; [done|].
      rewrite Hrefs, elem_of_app. by left.
    + rewrite <- (Hres _ Hin), Herr. by intros [? ?].
    + done.
    + rewrite Herr'. by intros [? ?].
    + rewrite (Hres _ Hin) in Herr.
      assert (err = err') as -> by congruence.
      split_and!.
      * intros pkgs. split; congruence.
      * intros e [= <-]. eauto.
      * intros e' [= <-]. eauto.
Qed.

Lemma Packages_agrees_with_PackageSnapshots_witness :
  ∃ e', Packages full_refs_program = Panicked e' ∧
        Unwrap e' = Some (errors_New "schema not found").
Proof.
  assert (no_partial_reference full_refs_program) as Hfull.
  { intros k ref Hk.
    assert (ref ∈ PackageReferences full_refs_program) as Hin
      by (apply elem_of_PackageReferences; eauto).
    apply list_elem_of_In in Hin. vm_compute in Hin.
    destruct Hin as [<-|[<-|[]]]; eauto. }
  apply (proj1 (proj2 (Packages_agrees_with_PackageSnapshots
                         full_refs_program Hfull))
           (fmt_Errorf_w "defining package 'broken'"
              (errors_New "schema not found"))).
  by vm_compute.
Defined.

(** ** [Source] *)

Section source_map.

Let add_file (source : gmap string string) (file : syntax.File)
  : gmap string string :=
  <[syntax.Name file := string_of_list_byte (syntax.Bytes file)]> source.

Lemma Source_snoc (fs : list syntax.File) (file : syntax.File) :
  fold_left add_file (fs ++ [file]) ∅ = add_file (fold_left add_file fs ∅) file.
Proof. by rewrite fold_left_app. Qed.

Lemma Source_lookup_is_Some (fs : list syntax.File) (name : string) :
  is_Some (fold_left add_file fs ∅ !! name) ↔
  ∃ file, file ∈ fs ∧ syntax.Name file = name.
Proof.
  induction fs as [|file fs IH] using rev_ind.
  - simpl. rewrite lookup_empty. split; [by intros [? ?]|].
    intros (file & H & _). by apply elem_of_nil in H.
  - rewrite Source_snoc. unfold add_file at 1.
    destruct (decide (syntax.Name file = name)) as [<-|Hne].
    + rewrite lookup_insert_eq. split; [|eauto].
      intros _. exists file. split; [|done].
      apply elem_of_app. right. by apply list_elem_of_singleton.
    + rewrite lookup_insert_ne, IH by done. split.
      * intros (f & Hf & Hn). exists f. split; [|done].
        apply elem_of_app. by left.
      * intros (f & [Hf|Hf]%elem_of_app & Hn); [eauto|].
        apply list_elem_of_singleton in Hf. congruence.
Qed.

Lemma Source_lookup_last (fs1 fs2 : list syntax.File) (file : syntax.File) :
  (∀ f, f ∈ fs2 → syntax.Name f ≠ syntax.Name file) →
  fold_left add_file (fs1 ++ file :: fs2) ∅ !! syntax.Name file
  = Some (string_of_list_byte (syntax.Bytes file)).
Proof.
  induction fs2 as [|f fs2 IH] using rev_ind; intros Hlater.
  - change (fs1 ++ [file]) with (fs1 ++ [file]).
    rewrite Source_snoc. apply lookup_insert_eq.
  - change (fs1 ++ file :: fs2 ++ [f]) with (fs1 ++ (file :: fs2) ++ [f]).
    rewrite app_assoc, Source_snoc. unfold add_file at 1.
    rewrite lookup_insert_ne.
    + apply IH. intros f' Hf'. apply Hlater, elem_of_app. by left.
    + apply Hlater, elem_of_app. right. by apply list_elem_of_singleton.
Qed.

Lemma Source_size (fs : list syntax.File) :
  size (fold_left add_file fs ∅) ≤ length fs ∧
  (NoDup (syntax.Name <$> fs) → size (fold_left add_file fs ∅) = length fs).
Proof.
  induction fs as [|file fs [IHle IHeq]] using rev_ind.
  - simpl. rewrite map_size_empty. done.
  - rewrite Source_snoc, length_app. simpl. unfold add_file at 1 3.
    rewrite !map_size_insert. split.
    + destruct (fold_left add_file fs ∅ !! syntax.Name file);
        unfold id; lia.
    + rewrite fmap_app. intros (Hnd & Hfresh & _)%NoDup_app.
      destruct (fold_left add_file fs ∅ !! syntax.Name file) eqn:Hl.
      * exfalso.
        destruct (proj1 (Source_lookup_is_Some fs (syntax.Name file)))
          as (f & Hf & Hn); [eauto|].
        apply (Hfresh (syntax.Name file)).
        -- rewrite <- Hn. apply list_elem_of_fmap. eauto.
        -- simpl. by left.
      * rewrite IHeq by done. lia.
Qed.

(** X7.  [Source] maps each file name of the program to the contents of
    the last file of that name: a name is a key exactly when some file
    bears it, a later file of the same name replaces an earlier one, so
    the map has at most as many entries as there are files, and as many
    when the names are distinct. *)
Theorem Source_last_file_wins (p : Program) :
  (∀ name, is_Some (Source p !! name) ↔
           ∃ file, file ∈ files p ∧ syntax.Name file = name) ∧
  (∀ fs1 file fs2,
      files p = fs1 ++ file :: fs2 →
      (∀ f, f ∈ fs2 → syntax.Name f ≠ syntax.Name file) →
      Source p !! syntax.Name file
      = Some (string_of_list_byte (syntax.Bytes file))) ∧
  size (Source p) ≤ length (files p) ∧
  (NoDup (syntax.Name <$> files p) → size (Source p) = length (files p)).
Proof.
  unfold Source. fold add_file. split_and!.
  - apply Source_lookup_is_Some.
  - intros fs1 file fs2 -> Hlater. by apply Source_lookup_last.
  - apply Source_size.
  - apply Source_size.
Qed.

End source_map.

Lemma Source_last_file_wins_witness :
  Source (mkProgram [] [main_pp; module_pp; syntax.mkFile "main.pp" []]
            no_binder) !! "main.pp"
  = Some (string_of_list_byte []).
Proof.
  apply (proj1 (proj2 (Source_last_file_wins
                         (mkProgram []
                            [main_pp; module_pp; syntax.mkFile "main.pp" []]
                            no_binder)))
           [main_pp; module_pp] (syntax.mkFile "main.pp" []) []).
  - reflexivity.
  - intros f Hf. by apply elem_of_nil in Hf.
Defined.

(** ** The whole exported tree *)

Lemma flat_map_fmap {A B C} (f : A → B) (g : B → list C) (l : list A) :
  flat_map g (f <$> l) = flat_map (λ x, g (f x)) l.
Proof. induction l as [|x l IH]; [done|]. simpl. by rewrite <- IH. Qed.

Lemma flat_map_ext_elem_of {A B} (f : A → list B) (g : A → list B)
    (l : list A) :
  (∀ x, x ∈ l → f x = g x) → flat_map f l = flat_map g l.
Proof.
  induction l as [|x l IH]; intros H; [done|]. simpl.
  rewrite (H x) by (by left). rewrite IH; [done|].
  intros y Hy. apply H. by right.
Qed.

Lemma flat_map_length_ext {A B C} (f : A → list B) (g : A → list C)
    (l : list A) :
  (∀ x, x ∈ l → length (f x) = length (g x)) →
  length (flat_map f l) = length (flat_map g l).
Proof.
  induction l as [|x l IH]; intros H; [done|]. simpl.
  rewrite !length_app, (H x) by (by left). rewrite IH; [done|].
  intros y Hy. apply H. by right.
Qed.

Lemma forallb_fmap_true {A B} (f : A → B) (g : B → bool) (l : list A) :
  (∀ x, x ∈ l → g (f x) = true) → forallb g (f <$> l) = true.
Proof.
  induction l as [|x l IH]; intros H; [done|]. simpl.
  rewrite (H x) by (by left). apply IH. intros y Hy. apply H. by right.
Qed.

Lemma program_files_unfold (p : Program) :
  program_files p =
  (exported_file <$> files p) ++
  flat_map (λ c, program_files (Component_Program c)) (ownComponents p).
Proof.
  destruct p as [nodes fs b]. unfold ownComponents. simpl. f_equal.
  induction nodes as [|n nodes IH]; [done|]. simpl. rewrite IH.
  destruct n as [| | |[]|]; reflexivity.
Qed.

(** X8.  The tree [SourceFiles] builds is well formed and complete at
    every depth: each entry holds exactly one of its two pointers; the
    files of the tree are the files of every program of the program
    tree, a program's own files before those of its components, with
    name and bytes unchanged and whatever the base directory; and there
    is one directory per Component node of the tree besides the root,
    whose path is the base directory. *)
Theorem SourceFiles_whole_tree (directory : string) (p : Program) :
  one_pointer_each (SourceFiles directory p) = true ∧
  tree_files (SourceFiles directory p) = program_files p ∧
  length (tree_paths (SourceFiles directory p))
    = S (length (allComponents p)) ∧
  head (tree_paths (SourceFiles directory p)) = Some directory.
Proof.
  revert directory. induction p as [p IH] using Program_tree_ind.
  intros directory. rewrite SourceFiles_unfold. split_and!.
  - simpl. rewrite forallb_app. apply andb_true_iff. split.
    + by apply forallb_fmap_true.
    + apply forallb_fmap_true. intros c Hc. simpl. by apply IH.
  - simpl. rewrite flat_map_app, !flat_map_fmap, program_files_unfold.
    apply (f_equal2 app).
    + unfold file_entry. simpl. generalize (files p). intros fs.
      induction fs as [|f fs IHfs]; [done|]. simpl. by rewrite IHfs.
    + apply flat_map_ext_elem_of. intros c Hc. simpl. by apply IH.
  - simpl. f_equal. rewrite flat_map_app, !flat_map_fmap, length_app.
    rewrite allComponents_unfold.
    replace (length (flat_map _ (files p))) with 0.
    2:{ generalize (files p). intros fs.
        induction fs as [|f fs IHfs]; [done|]. done. }
    simpl. apply flat_map_length_ext. intros c Hc. simpl. by apply IH.
  - done.
Qed.

(** ** More on the component walk *)

Lemma visit_node_grows (acc : gmap string Component) (n : Node) :
  (∀ c, n = ComponentNode c →
        ∀ acc0, acc0 ⊆ collectComponentsRecursive (Component_Program c) acc0) →
  acc ⊆ visit_node acc n ∧
  ∀ c, n = ComponentNode c → is_Some (visit_node acc n !! DirPath c).
Proof.
  intros IH. unfold visit_node. destruct n as [| | |c|]; simpl;
    try (split; [done|]; intros c0 H; discriminate H).
  destruct (acc !! DirPath c) as [seen|] eqn:Hc.
  - split; [done|]. intros c0 [= <-]. rewrite Hc. eauto.
  - pose proof (IH c eq_refl (<[DirPath c := c]> acc)) as Hsub. split.
    + transitivity (<[DirPath c := c]> acc); [|done].
      by apply insert_subseteq.
    + intros c0 [= <-]. exists c.
      apply (lookup_weaken _ _ _ _ (lookup_insert_eq _ _ _) Hsub).
Qed.

Lemma collectComponentsRecursive_grows (p : Program) :
  ∀ acc, acc ⊆ collectComponentsRecursive p acc ∧
         ∀ c, c ∈ ownComponents p →
              is_Some (collectComponentsRecursive p acc !! DirPath c).
Proof.
  induction p as [p IH] using Program_tree_ind. intros acc.
  rewrite collectComponentsRecursive_unfold.
  assert (∀ c, ComponentNode c ∈ Nodes p ↔ c ∈ ownComponents p) as Hown
    by (intros c; symmetry; apply elem_of_ownComponents).
  setoid_rewrite <- Hown.
  assert (∀ c, ComponentNode c ∈ Nodes p → c ∈ ownComponents p) as Hown'
    by (intros c; apply Hown).
  clear Hown. revert Hown' acc. generalize (Nodes p). intros ns.
  induction ns as [|n ns IHns]; intros Hown acc.
  - split; [done|]. intros c H. by apply elem_of_nil in H.
  - simpl.
    destruct (visit_node_grows acc n) as [Hsub Hn].
    { intros c -> acc0. apply IH, Hown. by left. }
    destruct (IHns (λ c Hc, Hown c (list_elem_of_further _ _ _ Hc))
                   (visit_node acc n)) as [Hsub' Hns].
    split; [by transitivity (visit_node acc n)|].
    intros c [Heq|Hc]%elem_of_cons; [|by apply Hns].
    destruct (Hn c (eq_sym Heq)) as [c0 Hc0]. exists c0.
    by apply (lookup_weaken _ _ _ _ Hc0 Hsub').
Qed.

Lemma fold_visit_node_seen (ns : list Node) (acc : gmap string Component) :
  (∀ c, ComponentNode c ∈ ns → is_Some (acc !! DirPath c)) →
  fold_left visit_node ns acc = acc.
Proof.
  induction ns as [|n ns IH]; intros Hseen; [done|]. simpl.
  assert (visit_node acc n = acc) as ->.
  { unfold visit_node. destruct n as [| | |c|]; simpl; try done.
    destruct (Hseen c) as [c0 ->]; [by left|done]. }
  apply IH. intros c Hc. apply Hseen. by right.
Qed.

(** X9.  [collectComponentsRecursive] only adds to the map it is given:
    entries already there are neither replaced nor removed, and every
    own component of the program ends up with its directory as a key.
    If all those directories are keys beforehand the map comes back
    unchanged, so walking the same program a second time over the
    result changes nothing. *)
Theorem collectComponentsRecursive_accumulates
    (p : Program) (components : gmap string Component) :
  components ⊆ collectComponentsRecursive p components ∧
  (∀ c, c ∈ ownComponents p →
        is_Some (collectComponentsRecursive p components !! DirPath c)) ∧
  ((∀ c, c ∈ ownComponents p → is_Some (components !! DirPath c)) →
   collectComponentsRecursive p components = components) ∧
  collectComponentsRecursive p (collectComponentsRecursive p components)
  = collectComponentsRecursive p components.
Proof.
  destruct (collectComponentsRecursive_grows p components) as [Hsub Hown].
  assert (∀ acc, (∀ c, c ∈ ownComponents p → is_Some (acc !! DirPath c)) →
                 collectComponentsRecursive p acc = acc) as Hseen.
  { intros acc H. rewrite collectComponentsRecursive_unfold.
    apply fold_visit_node_seen. intros c Hc.
    by apply H, elem_of_ownComponents. }
  split_and!; [done..| |]; auto.
Qed.

Lemma collectComponentsRecursive_accumulates_witness :
  collectComponentsRecursive twice_program (CollectComponents twice_program)
  = CollectComponents twice_program.
Proof.
  apply (proj1 (proj2 (proj2 (collectComponentsRecursive_accumulates
                                twice_program
                                (CollectComponents twice_program))))).
  intros c Hc. apply list_elem_of_In in Hc. simpl in Hc.
  destruct Hc as [<-|[<-|[]]]; vm_compute; eauto.
Defined.

Lemma NoDup_fmap_inj_on {A B} (f : A → B) (l : list A) (x y : A) :
  NoDup (f <$> l) → x ∈ l → y ∈ l → f x = f y → x = y.
Proof.
  induction l as [|z l IH]; intros Hnd Hx Hy Hxy.
  - by apply elem_of_nil in Hx.
  - rewrite fmap_cons in Hnd. apply NoDup_cons in Hnd as [Hz Hnd].
    apply elem_of_cons in Hx as [->|Hx]; apply elem_of_cons in Hy as [->|Hy].
    + done.
    + exfalso. apply Hz. rewrite Hxy. apply list_elem_of_fmap. eauto.
    + exfalso. apply Hz. rewrite <- Hxy. apply list_elem_of_fmap. eauto.
    + by apply IH.
Qed.

Lemma size_CollectComponents_le (p : Program) :
  size (CollectComponents p) ≤ length (allComponents p).
Proof.
  rewrite <- length_map_to_list,
    <- (length_fmap snd (map_to_list (CollectComponents p))).
  apply submseteq_length, NoDup_submseteq.
  - apply (NoDup_fmap_1 DirPath).
    replace (DirPath <$> (map_to_list (CollectComponents p)).*2)
      with (map_to_list (CollectComponents p)).*1;
      [apply NoDup_fst_map_to_list|].
    rewrite <- list_fmap_compose. apply list_fmap_ext.
    intros i [dir c] H. apply list_elem_of_lookup_2, elem_of_map_to_list in H.
    simpl. by destruct (CollectComponents_entry _ _ _ H).
  - intros c Hc. by apply CollectComponents_values_tree.
Qed.

(** X10.  [CollectComponents] returns the empty map exactly for a
    program that declares no component, and never more entries than
    the tree has Component nodes.  When the Component nodes of the tree
    have pairwise distinct directories, nothing is passed over: every
    Component node of the tree is the entry of its directory, and the
    map has as many entries as the tree has Component nodes. *)
Theorem CollectComponents_size (p : Program) :
  (CollectComponents p = ∅ ↔ ownComponents p = []) ∧
  size (CollectComponents p) ≤ length (allComponents p) ∧
  (NoDup (DirPath <$> allComponents p) →
   (∀ c, c ∈ allComponents p → CollectComponents p !! DirPath c = Some c) ∧
   size (CollectComponents p) = length (allComponents p)).
Proof.
  split_and!.
  - split.
    + intros Hempty.
      destruct (ownComponents p) as [|c cs] eqn:Hown; [done|]. exfalso.
      destruct (collectComponentsRecursive_grows p ∅) as [_ H].
      destruct (H c) as [c0 Hc0]; [rewrite Hown; by left|].
      fold (CollectComponents p) in Hc0.
      by rewrite Hempty, lookup_empty in Hc0.
    + intros Hown. unfold CollectComponents.
      rewrite collectComponentsRecursive_unfold.
      apply fold_visit_node_seen. intros c Hc.
      apply elem_of_ownComponents in Hc. rewrite Hown in Hc.
      by apply elem_of_nil in Hc.
  - apply size_CollectComponents_le.
  - intros Hnd.
    assert (directories_agree (allComponents p)) as Hagree.
    { intros c1 c2 H1 H2 Hdir.
      by assert (c1 = c2) as ->
        by apply (NoDup_fmap_inj_on DirPath _ c1 c2 Hnd H1 H2 Hdir). }
    assert (∀ c, c ∈ allComponents p →
                 CollectComponents p !! DirPath c = Some c) as Hall.
    { intros c Hc.
      destruct (CollectComponents_covers p Hagree c Hc) as (c1 & Hc1 & Hin & _).
      destruct (CollectComponents_entry _ _ _ Hc1) as [Hdir _].
      by assert (c1 = c) as <-
        by apply (NoDup_fmap_inj_on DirPath _ c1 c Hnd Hin Hc Hdir). }
    split; [done|].
    rewrite <- length_map_to_list,
      <- (length_fmap fst (map_to_list (CollectComponents p))),
      <- (length_fmap DirPath (allComponents p)).
    apply Permutation_length, NoDup_Permutation;
      [apply NoDup_fst_map_to_list|done|].
    intros dir. fold (map_keys (CollectComponents p)).
    rewrite elem_of_map_keys, list_elem_of_fmap. split.
    + intros [c Hc]. destruct (CollectComponents_entry _ _ _ Hc) as [<- Hin].
      eauto.
    + intros (c & -> & Hc). rewrite (Hall c Hc). eauto.
Qed.

Lemma CollectComponents_size_witness :
  size (CollectComponents mymodule_program)
  = length (allComponents mymodule_program).
Proof.
  apply (CollectComponents_size mymodule_program).
  vm_compute. apply NoDup_singleton.
Defined.

(** ** More on the snapshot merge *)

Lemma collectPackageSnapshots_error_source p s r :
  collectPackageSnapshots p s r →
  ∀ e, r.2 = Some e →
       ∃ q, q ∈ allPrograms p ∧ (PackageSnapshots q).2 = Some e.
Proof.
  revert p s r.
  apply (collectPackageSnapshots_mut_ind
           (λ p s r, ∀ e, r.2 = Some e →
              ∃ q, q ∈ allPrograms p ∧ (PackageSnapshots q).2 = Some e)
           (λ cs s r, ∀ e, r.2 = Some e →
              ∃ c q, c ∈ cs ∧ q ∈ allPrograms (Component_Program c) ∧
                     (PackageSnapshots q).2 = Some e)).
  - intros p s packages err Hsnap e [= <-]. exists p.
    split; [by left|by rewrite Hsnap].
  - intros p s packages range r Hsnap Hperm _ IH e He.
    destruct (IH e He) as (c & q & Hc & Hq & Hqe). exists q. split; [|done].
    apply (elem_of_allPrograms_nested p c); [|done].
    apply CollectComponents_values_tree. by rewrite <- Hperm.
  - intros s e H. discriminate H.
  - intros c range s s' err _ IH e He.
    destruct (IH e He) as (q & Hq & Hqe). exists c, q.
    split_and!; [by left|done..].
  - intros c range s s' r _ _ _ IH e He.
    destruct (IH e He) as (c' & q & Hc' & Hq & Hqe). exists c', q.
    split_and!; [by right|done..].
Qed.

Lemma CollectNestedPackageSnapshots_root_failed p ret e :
  CollectNestedPackageSnapshots p ret → (PackageSnapshots p).2 = Some e →
  ret = (∅, Some e).
Proof.
  destruct ret as [m e']. intros (s & Hrun & Hm) He. simpl in *.
  inversion Hrun as [? ? packages err Hsnap|? ? packages range ? Hsnap];
    subst; rewrite Hsnap in He; simplify_eq/=. done.
Qed.

(** X11.  The error of [CollectNestedPackageSnapshots] is always the
    error [PackageSnapshots] gave for some program of the tree, passed
    on unwrapped; there is none when every program of the tree
    resolves.  When the root program itself fails the map is empty.
    When it is a nested program that fails, the map is returned with
    the error and still holds what was merged before: every package
    name of the root has its entry. *)
Theorem CollectNestedPackageSnapshots_errors (p : Program) :
  (∀ ret e, CollectNestedPackageSnapshots p ret → ret.2 = Some e →
            ∃ q, q ∈ allPrograms p ∧ (PackageSnapshots q).2 = Some e) ∧
  (tree_resolves p →
   ∀ ret, CollectNestedPackageSnapshots p ret → ret.2 = None) ∧
  (∀ ret e, CollectNestedPackageSnapshots p ret →
            (PackageSnapshots p).2 = Some e → ret = (∅, Some e)) ∧
  (∀ ret pkgs pkg,
      CollectNestedPackageSnapshots p ret →
      PackageSnapshots p = (pkgs, None) → pkg ∈ pkgs →
      is_Some (ret.1 !! schema.Name pkg)).
Proof.
  split_and!.
  - intros [m e'] e (s & Hrun & _) He.
    by apply (collectPackageSnapshots_error_source _ _ _ Hrun).
  - intros Hres [m e] (s & Hrun & _).
    by apply (collectPackageSnapshots_resolves _ _ _ Hrun).
  - intros ret e. apply CollectNestedPackageSnapshots_root_failed.
  - intros [m e] pkgs pkg (s & Hrun & <-) Hsnap Hin.
    destruct (collectPackageSnapshots_log _ _ _ Hrun snapshots_ok_empty)
      as (Hok & extra & Hseen & _ & Hprefix & _).
    destruct (Hprefix pkgs Hsnap) as [rest ->]. simpl in *.
    rewrite Hok, Hseen. apply first_named_elem_of.
    apply elem_of_app. by left.
Qed.

Lemma CollectNestedPackageSnapshots_errors_witness :
  CollectNestedPackageSnapshots broken_nested_program
    (<["aws" := aws_v1]> ∅,
     Some (fmt_Errorf_w "defining package 'broken'"
             (errors_New "schema not found"))) ∧
  (∃ q, q ∈ allPrograms broken_nested_program ∧
        (PackageSnapshots q).2
        = Some (fmt_Errorf_w "defining package 'broken'"
                  (errors_New "schema not found"))) ∧
  is_Some ((<["aws" := aws_v1]> ∅ : gmap string schema.Package)
             !! schema.Name aws_v1).
Proof.
  assert (CollectNestedPackageSnapshots broken_nested_program
            (<["aws" := aws_v1]> ∅,
             Some (fmt_Errorf_w "defining package 'broken'"
                     (errors_New "schema not found")))) as Hret.
  { eexists. split.
    - apply (collectPackageSnapshots_run_sound 2). vm_compute. reflexivity.
    - vm_compute. reflexivity. }
  destruct (CollectNestedPackageSnapshots_errors broken_nested_program)
    as (Hsource & _ & _ & Hkept).
  split_and!; [exact Hret| |].
  - apply (Hsource _ _ Hret). reflexivity.
  - apply (Hkept _ [aws_v1] aws_v1 Hret); [by vm_compute|].
    apply list_elem_of_In. simpl. auto.
Defined.

Lemma only_adds_refl T m : only_adds T m m.
Proof. split; [done|]. auto. Qed.

Lemma only_adds_trans T m m' m'' :
  only_adds T m m' → only_adds T m' m'' → only_adds T m m''.
Proof.
  intros [Hsub Hnew] [Hsub' Hnew']. split; [by transitivity m'|].
  intros name pkg H. destruct (Hnew' name pkg H) as [H'|(Hnone & Hname & HT)].
  - by apply Hnew.
  - right. split_and!; [|done..].
    destruct (m !! name) as [x|] eqn:Hm; [|done].
    by rewrite (lookup_weaken _ _ _ _ Hm Hsub) in Hnone.
Qed.

Lemma only_adds_weaken (T T' : schema.Package → Prop) m m' :
  (∀ pkg, T pkg → T' pkg) → only_adds T m m' → only_adds T' m m'.
Proof. intros HT [Hsub Hnew]. split; [done|]. naive_solver. Qed.

Lemma merge_packages_only_adds pkgs s :
  only_adds (λ pkg, pkg ∈ pkgs)
            (seenPackages s) (seenPackages (merge_packages pkgs s)).
Proof.
  unfold merge_packages. revert s.
  induction pkgs as [|pkg pkgs IH]; intros s; [apply only_adds_refl|].
  simpl. eapply only_adds_trans.
  2:{ eapply only_adds_weaken; [|apply IH]. intros x Hx. by right. }
  destruct (seenPackages s !! schema.Name pkg) eqn:Hseen; simpl.
  - apply only_adds_refl.
  - split; [by apply insert_subseteq|]. intros name x Hx.
    destruct (decide (schema.Name pkg = name)) as [<-|Hne].
    + rewrite lookup_insert_eq in Hx. injection Hx as <-.
      right. split; [done|]. split; [done|]. by left.
    + rewrite lookup_insert_ne in Hx by done. by left.
Qed.

Lemma collectPackageSnapshots_only_adds p s r :
  collectPackageSnapshots p s r →
  only_adds (snapshot_of_tree p) (seenPackages s) (seenPackages r.1).
Proof.
  revert p s r.
  apply (collectPackageSnapshots_mut_ind
           (λ p s r, only_adds (snapshot_of_tree p)
                               (seenPackages s) (seenPackages r.1))
           (λ cs s r,
              only_adds (λ pkg, ∃ c, c ∈ cs ∧
                           snapshot_of_tree (Component_Program c) pkg)
                        (seenPackages s) (seenPackages r.1))).
  - intros p s packages err _. apply only_adds_refl.
  - intros p s packages range r Hsnap Hperm _ IH.
    eapply only_adds_trans.
    + eapply only_adds_weaken; [|apply merge_packages_only_adds].
      intros pkg Hpkg. exists p. split; [by left|].
      rewrite Hsnap. exact Hpkg.
    + eapply only_adds_weaken; [|exact IH].
      intros pkg (c & Hc & Hpkg). apply (snapshot_of_tree_nested p c); [|done].
      apply CollectComponents_values_tree. by rewrite <- Hperm.
  - intros s. apply only_adds_refl.
  - intros c range s s' err _ IH. simpl in *.
    eapply only_adds_weaken; [|exact IH].
    intros pkg Hpkg. exists c. split; [by left|done].
  - intros c range s s' r _ IH _ IHrange. simpl in *.
    eapply only_adds_trans.
    + eapply only_adds_weaken; [|exact IH].
      intros pkg Hpkg. exists c. split; [by left|done].
    + eapply only_adds_weaken; [|exact IHrange].
      intros pkg (c' & Hc' & Hpkg). exists c'. split; [by right|done].
Qed.

(** X12.  [collectPackageSnapshots] only adds to the map it is given,
    whether it ends in an error or not: an entry already there is kept
    as it is, even when the tree holds another snapshot of that name,
    and every entry added is a snapshot of a program of the tree,
    stored under its own name. *)
Theorem collectPackageSnapshots_keeps_seen
    (p : Program) (s : snapshots) (r : snapshots * option error) :
  collectPackageSnapshots p s r →
  seenPackages s ⊆ seenPackages r.1 ∧
  ∀ name pkg, seenPackages r.1 !! name = Some pkg →
    seenPackages s !! name = Some pkg ∨
    (seenPackages s !! name = None ∧ schema.Name pkg = name ∧
     snapshot_of_tree p pkg).
Proof. apply collectPackageSnapshots_only_adds. Qed.

Lemma collectPackageSnapshots_keeps_seen_witness :
  seenPackages (mk_snapshots (<["aws" := aws_v2]> ∅) [])
    ⊆ seenPackages (mk_snapshots (<["aws" := aws_v2]> ∅) [aws_v1; aws_v2]).
Proof.
  assert (collectPackageSnapshots aws_parent_program
            (mk_snapshots (<["aws" := aws_v2]> ∅) [])
            (mk_snapshots (<["aws" := aws_v2]> ∅) [aws_v1; aws_v2], None))
    as Hrun.
  { apply (collectPackageSnapshots_run_sound 2). vm_compute. reflexivity. }
  exact (proj1 (collectPackageSnapshots_keeps_seen _ _ _ Hrun)).
Defined.

Lemma CollectNestedPackageSnapshots_entry p ret name pkg :
  CollectNestedPackageSnapshots p ret → ret.1 !! name = Some pkg →
  schema.Name pkg = name ∧ snapshot_of_tree p pkg.
Proof.
  destruct ret as [m e]. intros (s & Hrun & <-) Hpkg. simpl in *.
  destruct (collectPackageSnapshots_only_adds _ _ _ Hrun) as [_ Hnew].
  destruct (Hnew name pkg Hpkg) as [H|(_ & Hname & Htree)]; [|done].
  simpl in H. by rewrite lookup_empty in H.
Qed.

Lemma CollectNestedPackageSnapshots_covered p ret pkg :
  CollectNestedPackageSnapshots p ret → ret.2 = None →
  directories_agree (allComponents p) → snapshot_of_tree p pkg →
  is_Some (ret.1 !! schema.Name pkg).
Proof.
  destruct ret as [m e]. intros (s & Hrun & <-) He Hagree (q & Hq & Hin).
  simpl in *.
  destruct (collectPackageSnapshots_log _ _ _ Hrun snapshots_ok_empty)
    as (Hok & extra & Hseen & _ & Hprefix & Hres & Hcover).
  simpl in *. rewrite Hok, Hseen. apply first_named_elem_of.
  apply elem_of_cons in Hq as [->|Hq].
  - specialize (Hres He).
    destruct (PackageSnapshots p) as [pkgs e'] eqn:Hsnap. simpl in *.
    subst e'. destruct (Hprefix pkgs eq_refl) as [rest ->].
    apply elem_of_app. by left.
  - apply list_elem_of_fmap in Hq as (c & -> & Hc).
    destruct (CollectComponents_covers p Hagree c Hc) as (c1 & Hc1 & _ & Heq).
    apply (Hcover He _ c1 Hc1). by rewrite Heq.
Qed.

(** X13.  On a tree in which every program resolves, Component nodes of
    one directory carry the same nested Program and there is one
    snapshot per package name, the order in which Go ranges over the
    component map does not matter: every outcome of
    [CollectNestedPackageSnapshots] is without error, its map holds
    under each name exactly the tree's snapshot of that name, and so any
    two outcomes are equal. *)
Theorem CollectNestedPackageSnapshots_deterministic (p : Program) :
  tree_resolves p → directories_agree (allComponents p) → names_agree p →
  (∀ ret, CollectNestedPackageSnapshots p ret →
          ret.2 = None ∧
          ∀ name pkg, ret.1 !! name = Some pkg ↔
                      snapshot_of_tree p pkg ∧ schema.Name pkg = name) ∧
  (∀ ret ret', CollectNestedPackageSnapshots p ret →
               CollectNestedPackageSnapshots p ret' → ret = ret').
Proof.
  intros Hres Hagree Hnames.
  assert (∀ ret, CollectNestedPackageSnapshots p ret →
          ret.2 = None ∧
          ∀ name pkg, ret.1 !! name = Some pkg ↔
                      snapshot_of_tree p pkg ∧ schema.Name pkg = name) as H.
  { intros ret Hret.
    assert (ret.2 = None) as He.
    { destruct ret as [m e], Hret as (s & Hrun & _).
      by apply (collectPackageSnapshots_resolves _ _ _ Hrun). }
    split; [done|]. intros name pkg. split.
    - intros Hpkg.
      by destruct (CollectNestedPackageSnapshots_entry _ _ _ _ Hret Hpkg).
    - intros [Htree <-].
      destruct (CollectNestedPackageSnapshots_covered _ _ _ Hret He
                  Hagree Htree) as [pkg' Hpkg'].
      destruct (CollectNestedPackageSnapshots_entry _ _ _ _ Hret Hpkg')
        as [Hname Htree'].
      by rewrite (Hnames pkg' pkg Htree' Htree Hname) in Hpkg'. }
  split; [done|]. intros [m e] [m' e'] Hret Hret'.
  destruct (H _ Hret) as [He Hm], (H _ Hret') as [He' Hm']. simpl in *.
  subst. f_equal. apply map_eq. intros name. apply option_eq. intros pkg.
  by rewrite Hm, Hm'.
Qed.

Lemma CollectNestedPackageSnapshots_deterministic_witness :
  CollectNestedPackageSnapshots random_parent_program
    (<["aws" := aws_v2]> (<["random" := random_pkg]> ∅), None) ∧
  snapshot_of_tree random_parent_program aws_v2.
Proof.
  assert (CollectNestedPackageSnapshots random_parent_program
            (<["aws" := aws_v2]> (<["random" := random_pkg]> ∅), None))
    as Hret.
  { eexists. split.
    - apply (collectPackageSnapshots_run_sound 2). vm_compute. reflexivity.
    - vm_compute. reflexivity. }
  split; [exact Hret|].
  assert (tree_resolves random_parent_program) as Hres.
  { intros q Hq. apply list_elem_of_In in Hq. simpl in Hq.
    destruct Hq as [<-|[<-|[]]]; vm_compute; reflexivity. }
  assert (directories_agree (allComponents random_parent_program)) as Hagree.
  { intros c1 c2 H1 H2 _. apply list_elem_of_In in H1, H2. simpl in H1, H2.
    destruct H1 as [<-|[]], H2 as [<-|[]]. reflexivity. }
  assert (names_agree random_parent_program) as Hnames.
  { assert (∀ pkg, snapshot_of_tree random_parent_program pkg →
                   pkg = random_pkg ∨ pkg = aws_v2) as Hcases.
    { intros pkg (q & Hq & Hin). apply list_elem_of_In in Hq. simpl in Hq.
      destruct Hq as [<-|[<-|[]]]; vm_compute in Hin;
        apply list_elem_of_singleton in Hin; auto. }
    intros pkg pkg' H1 H2 Hname.
    destruct (Hcases _ H1) as [->| ->], (Hcases _ H2) as [->| ->];
      try reflexivity; discriminate Hname. }
  destruct (proj1 (CollectNestedPackageSnapshots_deterministic
                     random_parent_program Hres Hagree Hnames) _ Hret)
    as [_ Hm].
  apply (proj1 (Hm "aws" aws_v2)). vm_compute. reflexivity.
Defined.

(** ** More on the node filters *)

(** X14.  [ConfigVariables] and [OutputVariables] work node by node:
    the result for a node list put together from two lists is the two
    results one after the other, whatever the files and binder of the
    programs; and since a node has one kind, the config variables, the
    output variables and the components of a program together are no
    more than its nodes. *)
Theorem node_filters_compose
    (ns1 ns2 : list Node) (fs fs1 fs2 : list syntax.File) (b b1 b2 : binder) :
  ConfigVariables (mkProgram (ns1 ++ ns2) fs b)
  = ConfigVariables (mkProgram ns1 fs1 b1)
      ++ ConfigVariables (mkProgram ns2 fs2 b2) ∧
  OutputVariables (mkProgram (ns1 ++ ns2) fs b)
  = OutputVariables (mkProgram ns1 fs1 b1)
      ++ OutputVariables (mkProgram ns2 fs2 b2) ∧
  length (ConfigVariables (mkProgram ns1 fs b))
    + length (OutputVariables (mkProgram ns1 fs b))
    + length (ownComponents (mkProgram ns1 fs b))
  ≤ length ns1.
Proof.
  rewrite !ConfigVariables_omap, !OutputVariables_omap.
  unfold ownComponents. simpl. rewrite !omap_app. split_and!; [done..|].
  induction ns1 as [|n ns1 IH]; [done|].
  destruct n; simpl;
    repeat match goal with
           | |- context [list_omap ?A ?B ?f ns1] =>
             change (list_omap A B f ns1) with (omap f ns1)
           end; lia.
Qed.

(** ** Components of components *)

(** X15.  The keys of [CollectComponents] are directories of Component
    nodes of the tree.  When Component nodes of one directory carry the
    same nested Program, the collection is closed under nesting:
    whatever [CollectComponents] finds in the nested Program of a
    collected component, its directory is a key for the whole program
    too. *)
Theorem CollectComponents_nested_keys (p : Program) :
  (∀ dir, is_Some (CollectComponents p !! dir) →
          ∃ c, c ∈ allComponents p ∧ DirPath c = dir) ∧
  (directories_agree (allComponents p) →
   ∀ dir c dir',
     CollectComponents p !! dir = Some c →
     is_Some (CollectComponents (Component_Program c) !! dir') →
     is_Some (CollectComponents p !! dir')).
Proof.
  split.
  - intros dir [c Hc]. exists c.
    by destruct (CollectComponents_entry _ _ _ Hc).
  - intros Hagree dir c dir' Hc [c' Hc'].
    destruct (CollectComponents_entry _ _ _ Hc) as [_ Hin].
    destruct (CollectComponents_entry _ _ _ Hc') as [<- Hin'].
    destruct (CollectComponents_covers p Hagree c')
      as (c1 & Hc1 & _); [|eauto].
    by apply (allComponents_nested p c).
Qed.

Lemma CollectComponents_nested_keys_witness :
  is_Some (CollectComponents twice_program !! "/work/mymodule/inner").
Proof.
  apply (proj2 (CollectComponents_nested_keys twice_program))
    with (dir := "/work/mymodule") (c := mymodule_component "first").
  - intros c1 c2 H1 H2.
    apply list_elem_of_In in H1, H2. simpl in H1, H2.
    destruct H1 as [<-|[<-|[<-|[<-|[]]]]];
      destruct H2 as [<-|[<-|[<-|[<-|[]]]]];
      intros Heq; try reflexivity; discriminate Heq.
  - vm_compute. reflexivity.
  - vm_compute. eauto.
Defined.

(** ** The golden files of [testProgressEvents] *)

Section golden_files.

Local Open Scope Z_scope.

Lemma append_String (a : ascii) (s t : string) :
  String a s +:+ t = String a (s +:+ t).
Proof. reflexivity. Qed.

Lemma append_empty_l (t : string) : "" +:+ t = t.
Proof. reflexivity. Qed.

Lemma append_inv_head (s t1 t2 : string) : s +:+ t1 = s +:+ t2 → t1 = t2.
Proof.
  induction s as [|a s IH]; [done|].
  rewrite !append_String. intros [= H]. by apply IH.
Qed.

Lemma list_ascii_of_string_append (s t : string) :
  list_ascii_of_string (s +:+ t)
  = (list_ascii_of_string s ++ list_ascii_of_string t)%list.
Proof.
  induction s as [|a s IH]; [done|].
  rewrite append_String. simpl. by rewrite IH.
Qed.

Lemma append_inj_tail (s1 s2 t1 t2 : string) :
  String.length t1 = String.length t2 →
  s1 +:+ t1 = s2 +:+ t2 → s1 = s2 ∧ t1 = t2.
Proof.
  intros Hlen H. apply (f_equal list_ascii_of_string) in H.
  rewrite !list_ascii_of_string_append in H.
  apply app_inj_2 in H as [H1 H2].
  - rewrite <- (string_of_list_ascii_of_string s1),
      <- (string_of_list_ascii_of_string s2),
      <- (string_of_list_ascii_of_string t1),
      <- (string_of_list_ascii_of_string t2). by rewrite H1, H2.
  - clear H. revert t2 Hlen.
    induction t1 as [|a t1 IH]; intros [|b t2]; simpl; try done.
    intros [= Hlen]. f_equal. by apply IH.
Qed.

Lemma append_inv_tail (s1 s2 t : string) : s1 +:+ t = s2 +:+ t → s1 = s2.
Proof. intros H. by apply (append_inj_tail s1 s2 t t) in H as [-> _]. Qed.

Lemma no_char_append (c : ascii) (s t : string) :
  no_char c (s +:+ t) = no_char c s && no_char c t.
Proof.
  induction s as [|a s IH]; [done|].
  rewrite append_String. simpl. by rewrite IH, andb_assoc.
Qed.

(** Two strings free of [c] that agree up to and after a [c]. *)
Lemma append_split_at (c : ascii) (s1 s2 r1 r2 : string) :
  no_char c s1 = true → no_char c s2 = true →
  s1 +:+ String c r1 = s2 +:+ String c r2 → s1 = s2 ∧ r1 = r2.
Proof.
  revert s2. induction s1 as [|a s1 IH]; intros [|b s2] H1 H2;
    rewrite ?append_String, ?append_empty_l; intros H.
  - by injection H as ->.
  - injection H as -> _. simpl in H2. by rewrite Ascii.eqb_refl in H2.
  - injection H as -> _. simpl in H1. by rewrite Ascii.eqb_refl in H1.
  - injection H as -> Htl. simpl in H1, H2.
    apply andb_true_iff in H1 as [_ H1]. apply andb_true_iff in H2 as [_ H2].
    destruct (IH s2 H1 H2 Htl) as [-> ->]. done.
Qed.

Lemma no_char_String (c a : ascii) (s : string) :
  a ≠ c → no_char c s = true → no_char c (String a s) = true.
Proof.
  intros Hne Hs. change (negb (Ascii.eqb a c) && no_char c s = true).
  rewrite Hs, andb_true_r. by apply negb_true_iff, Ascii.eqb_neq.
Qed.

Lemma pretty_N_go_no_char (c : ascii) (x : N) (s : string) :
  (∀ n, pretty_N_char n ≠ c) →
  no_char c s = true → no_char c (pretty_N_go x s) = true.
Proof.
  intros Hc. revert s.
  induction (N.lt_wf_0 x) as [x _ IH]; intros s Hs.
  assert (x = 0 ∨ 0 < x)%N as [->|Hx] by lia.
  - by rewrite pretty_N_go_0.
  - rewrite pretty_N_go_step by done. apply IH.
    + apply N.div_lt; lia.
    + by apply no_char_String.
Qed.

Lemma pretty_Z_no_char (c : ascii) (z : Z) :
  (∀ n, pretty_N_char n ≠ c) → c ≠ "-"%char →
  no_char c (pretty z) = true.
Proof.
  intros Hc Hdash.
  assert (∀ x : N, no_char c (pretty x) = true) as HN.
  { intros x. unfold pretty, pretty_N. case_decide.
    - apply no_char_String; [apply (Hc 0%N)|done].
    - by apply pretty_N_go_no_char. }
  destruct z as [|x|x]; unfold pretty, pretty_Z.
  - apply no_char_String; [apply (Hc 0%N)|done].
  - apply HN.
  - rewrite append_String, append_empty_l.
    apply no_char_String; [congruence|apply (HN (N.pos x))].
Qed.

Lemma x_not_digit (n : N) : pretty_N_char n ≠ "x"%char.
Proof. unfold pretty_N_char. by repeat case_match. Qed.

Lemma c_not_digit (n : N) : pretty_N_char n ≠ "c"%char.
Proof. unfold pretty_N_char. by repeat case_match. Qed.

Lemma golden_suffix_interactive_inj (raw raw' : bool) (w h w' h' : Z) :
  golden_suffix true raw w h = golden_suffix true raw' w' h' →
  raw = raw' ∧ w = w' ∧ h = h'.
Proof.
  assert (∀ z : Z, no_char "x" (pretty z) = true) as Hx
    by (intros z; by apply pretty_Z_no_char; [apply x_not_digit|]).
  assert (∀ z : Z, no_char "c" (pretty z) = true) as Hc
    by (intros z; by apply pretty_Z_no_char; [apply c_not_digit|]).
  assert (∀ z z' : Z, pretty z ≠ pretty z' +:+ "-cooked") as Hmixed.
  { intros z z' H. pose proof (Hc z) as Hz.
    rewrite H, no_char_append, Hc in Hz. discriminate Hz. }
  unfold golden_suffix.
  destruct raw, raw'; simpl negb; cbv iota;
    rewrite ?string_append_assoc; intros H;
    apply append_inv_head in H;
    apply append_split_at in H as [Hw Hh]; try apply Hx;
    apply (inj pretty) in Hw; subst w'.
  - apply (inj pretty) in Hh. by subst.
  - by apply Hmixed in Hh.
  - symmetry in Hh. by apply Hmixed in Hh.
  - change "-cooked" with ("-" +:+ String "c" "ooked") in Hh.
    rewrite <- !string_append_assoc in Hh.
    apply append_split_at in Hh as [Hh _];
      try (rewrite no_char_append, Hc; reflexivity).
    apply append_inv_tail, (inj pretty) in Hh. by subst.
Qed.

(** X16.  [testProgressEvents] never confuses two runs' golden files.
    The suffix tells interactive from non-interactive runs, and among
    interactive runs it determines the width, the height and whether
    the terminal is raw; so for one event file, runs with different
    settings compare against different stdout files, and the stdout
    and stderr files of a run are different files.  (Non-interactive
    runs do not use the other settings in the name.) *)
Theorem golden_files_distinct
    (path : string) (interactive raw interactive' raw' : bool)
    (w h w' h' : Z) :
  (golden_stdout path interactive raw w h
   = golden_stdout path interactive' raw' w' h' →
   interactive = interactive' ∧
   (interactive = true → raw = raw' ∧ w = w' ∧ h = h')) ∧
  golden_stdout path interactive raw w h
  ≠ golden_stderr path interactive' raw' w' h' ∧
  golden_suffix false raw w h = golden_suffix false raw' w' h'.
Proof.
  split_and!; [| |done].
  - unfold golden_stdout. intros H.
    apply append_inv_head, append_inv_tail in H.
    destruct interactive, interactive'.
    + split; [done|]. intros _. by apply golden_suffix_interactive_inj.
    + exfalso. unfold golden_suffix in H.
      destruct raw; simpl negb in H; cbv iota in H;
        rewrite ?string_append_assoc, !append_String in H; discriminate H.
    + exfalso. unfold golden_suffix in H.
      destruct raw'; simpl negb in H; cbv iota in H;
        rewrite ?string_append_assoc, !append_String in H; discriminate H.
    + done.
  - unfold golden_stdout, golden_stderr. intros H.
    apply append_inv_head in H.
    apply append_inj_tail in H as [_ H]; [discriminate H|reflexivity].
Qed.

End golden_files.

Lemma golden_files_distinct_witness :
  true = true ∧ (true = true → false = false ∧ 80%Z = 80%Z ∧ 24%Z = 24%Z).
Proof.
  apply (proj1 (golden_files_distinct "testdata/not-truncated/a.json"
                  true false true false 80 24 80 24)).
  reflexivity.
Defined.

(** Where two collected components bring different snapshots of one
    name and the root has none, the order in which the component map is
    ranged over decides: both snapshots are possible results. *)
Example CollectNestedPackageSnapshots_range_order_matters :
  CollectNestedPackageSnapshots rival_program (<["aws" := aws_v1]> ∅, None) ∧
  CollectNestedPackageSnapshots rival_program (<["aws" := aws_v2]> ∅, None).
Proof.
  assert (∀ first second pkg,
            first ≠ second →
            (first = rival_one ∨ first = rival_two) →
            (second = rival_one ∨ second = rival_two) →
            (PackageSnapshots (Component_Program first)) = ([pkg], None) →
            schema.Name pkg = "aws" →
            (∃ pkg', PackageSnapshots (Component_Program second)
                     = ([pkg'], None) ∧ schema.Name pkg' = "aws") →
            CollectNestedPackageSnapshots rival_program
              (<["aws" := pkg]> ∅, None)) as Horder.
  { intros first second pkg Hne Hfirst Hsecond Hsnap Hname (pkg' & Hsnap' & Hname').
    assert (CollectComponents (Component_Program first) = ∅) as Hleaf
      by (destruct Hfirst as [-> | ->]; by vm_compute).
    assert (CollectComponents (Component_Program second) = ∅) as Hleaf'
      by (destruct Hsecond as [-> | ->]; by vm_compute).
    exists (mk_snapshots (<["aws" := pkg]> ∅) [pkg; pkg']). split; [|done].
    apply (collect_PackageSnapshots_merged _ _ [] [first; second]).
    - by vm_compute.
    - destruct Hfirst as [-> | ->], Hsecond as [-> | ->];
        [by destruct Hne| | |by destruct Hne];
        vm_compute; (reflexivity || apply perm_swap).
    - apply (collect_range_next _ _ _ (mk_snapshots (<["aws" := pkg]> ∅) [pkg])).
      + apply (collect_PackageSnapshots_merged _ _ [pkg] []); [done| |].
        * by rewrite Hleaf, map_to_list_empty.
        * unfold merge_packages, empty_snapshots. simpl.
          rewrite lookup_empty, Hname. simpl. constructor.
      + apply (collect_range_next _ _ _
                 (mk_snapshots (<["aws" := pkg]> ∅) [pkg; pkg'])).
        * apply (collect_PackageSnapshots_merged _ _ [pkg'] []); [done| |].
          -- by rewrite Hleaf', map_to_list_empty.
          -- unfold merge_packages. simpl.
             rewrite Hname', lookup_insert_eq. simpl. constructor.
        * constructor. }
  assert (rival_one ≠ rival_two) as Hne by (intros H; discriminate H).
  split.
  - apply (Horder rival_one rival_two aws_v1);
      [exact Hne|by left|by right|vm_compute; reflexivity|reflexivity|].
    exists aws_v2. split; [vm_compute; reflexivity|reflexivity].
  - apply (Horder rival_two rival_one aws_v2);
      [by apply not_eq_sym|by right|by left|vm_compute; reflexivity
      |reflexivity|].
    exists aws_v1. split; [vm_compute; reflexivity|reflexivity].
Qed.
